(** * librfc: the JSON writer (RFC 4627), the SHA-1 digest value (RFC 3174)
    and the C string wrapper, embedded from the C++ sources.

    Layout: the part of the C library the sources call ([Libc]), then one
    module per source file ([Rfc4627], [Rfc3174], [Util]), then the
    properties. *)

From Stdlib Require Import ZArith NArith List Bool Lia String.
From Stdlib Require Import Strings.Byte.
From Stdlib Require Import Floats.SpecFloat.
From Stdlib Require Import DecimalString.
Import ListNotations.

Local Open Scope Z_scope.

(* ================================================================== *)
(** ** The C library functions the sources call *)
(* ================================================================== *)

Module Libc.

(** A [const char*] is modelled by the bytes stored from the pointer on.
    The terminating NUL that C requires is the end of the list; an embedded
    [x00] terminates the string earlier, as it does in C. *)
Definition cstring := list byte.

(** [p + n] on such a pointer. *)
Definition advance (p : cstring) (n : nat) : cstring := skipn n p.

(** [p[i]]: the byte at the end of the list is the terminator. *)
Definition load (p : cstring) (i : nat) : byte := nth i p x00.

(** Plain [char] is signed (x86-64 System V); this is the conversion of a
    [char] to [int]. *)
Definition int_of_char (c : byte) : Z :=
  let n := Z.of_N (Byte.to_N c) in
  if n <? 128 then n else n - 256.

Fixpoint strlen (s : cstring) : nat :=
  match s with
  | [] => 0%nat
  | c :: s' => if Byte.eqb c x00 then 0%nat else S (strlen s')
  end.

(** The bytes of the string proper: everything before the terminator. *)
Fixpoint c_str (s : cstring) : list byte :=
  match s with
  | [] => []
  | c :: s' => if Byte.eqb c x00 then [] else c :: c_str s'
  end.

(** [strchr(s, c)]: the offset of the first [c] from [s], [None] for the null
    pointer.  The terminator belongs to the string, so [c = 0] is found at
    offset [strlen s]. *)
Fixpoint strchr (s : cstring) (c : byte) : option nat :=
  match s with
  | [] => if Byte.eqb c x00 then Some 0%nat else None
  | b :: s' =>
      if Byte.eqb b c then Some 0%nat
      else if Byte.eqb b x00 then None
      else option_map S (strchr s' c)
  end.

(** [memcmp(a, b, n)]: only the sign of the result is specified; the model
    returns the difference of the first pair of bytes that differ. *)
Fixpoint memcmp (a b : list byte) (n : nat) : Z :=
  match n with
  | O => 0
  | S n' =>
      let x := Z.of_N (Byte.to_N (hd x00 a)) in
      let y := Z.of_N (Byte.to_N (hd x00 b)) in
      if x =? y then memcmp (tl a) (tl b) n' else x - y
  end.

(** [memset(a, v, n)] on an array of at least [n] bytes. *)
Definition memset (a : list byte) (v : byte) (n : nat) : list byte :=
  repeat v n ++ skipn n a.

(** *** <cctype>, in the "C" locale.  Each takes and returns an [int]. *)

Definition between (lo hi c : Z) : bool := (lo <=? c) && (c <=? hi).
Definition int_of_bool (b : bool) : Z := if b then 1 else 0.

Definition isdigit (c : Z) : Z := int_of_bool (between 48 57 c).
Definition isupper (c : Z) : Z := int_of_bool (between 65 90 c).
Definition islower (c : Z) : Z := int_of_bool (between 97 122 c).
Definition isalpha (c : Z) : Z :=
  int_of_bool (between 65 90 c || between 97 122 c).
Definition isalnum (c : Z) : Z :=
  int_of_bool (between 48 57 c || between 65 90 c || between 97 122 c).
Definition isascii (c : Z) : Z := int_of_bool (between 0 127 c).
Definition isblank (c : Z) : Z := int_of_bool ((c =? 32) || (c =? 9)).
Definition iscntrl (c : Z) : Z := int_of_bool (between 0 31 c || (c =? 127)).
Definition isgraph (c : Z) : Z := int_of_bool (between 33 126 c).
Definition isprint (c : Z) : Z := int_of_bool (between 32 126 c).
Definition ispunct (c : Z) : Z :=
  int_of_bool (between 33 126 c
               && negb (between 48 57 c || between 65 90 c || between 97 122 c)).
Definition isspace (c : Z) : Z := int_of_bool (between 9 13 c || (c =? 32)).
Definition isxdigit (c : Z) : Z :=
  int_of_bool (between 48 57 c || between 65 70 c || between 97 102 c).

(** *** <cstdio> formatting *)

(** The text of [printf("%lld", v)] and of [printf("%llu", v)]: decimal, a
    leading [-] for negatives, [0] for zero. *)
Definition decimal (v : Z) : list byte :=
  list_byte_of_string (NilZero.string_of_int (Z.to_int v)).

Definition hex_digit_upper (d : N) : byte :=
  nth (N.to_nat d) (list_byte_of_string "0123456789ABCDEF") x30.

(** The text of [printf("%04X", v)] for a [std::uint8_t] argument: at most two
    significant digits, padded with zeros to width four. *)
Definition hex_04X (v : byte) : list byte :=
  let n := Byte.to_N v in
  [x30; x30; hex_digit_upper (n / 16)%N; hex_digit_upper (n mod 16)%N].

(** [p[i] = v] inside the buffer. *)
Definition poke (p : cstring) (i : nat) (v : byte) : cstring :=
  firstn i p ++ v :: skipn (S i) p.

(** [strcmp(a, b)]: the bytes are compared as [unsigned char] up to the first
    difference or the terminator; only the sign of the result is specified,
    the model returns the difference of the bytes. *)
Fixpoint strcmp (a b : cstring) : Z :=
  match a with
  | [] => 0 - Z.of_N (Byte.to_N (load b 0))
  | x :: a' =>
      if Byte.eqb x (load b 0) then
        if Byte.eqb x x00 then 0 else strcmp a' (tl b)
      else Z.of_N (Byte.to_N x) - Z.of_N (Byte.to_N (load b 0))
  end.

(** Whether the string [n] is found at the very start of [h]. *)
Fixpoint starts_with (h n : cstring) {struct n} : bool :=
  match n with
  | [] => true
  | y :: n' =>
      if Byte.eqb y x00 then true
      else match h with
           | [] => false
           | x :: h' => if Byte.eqb x y then starts_with h' n' else false
           end
  end.

(** [strstr(h, n)]: the offset of the first occurrence of the string [n] in
    [h], [None] for the null pointer; the empty string is found at 0. *)
Fixpoint strstr (h n : cstring) : option nat :=
  match h with
  | [] => if starts_with [] n then Some 0%nat else None
  | x :: h' =>
      if starts_with h n then Some 0%nat
      else if Byte.eqb x x00 then None
      else option_map S (strstr h' n)
  end.

(** [strrchr(s, c)]: the offset of the last [c], the terminator included. *)
Fixpoint strrchr (s : cstring) (c : byte) : option nat :=
  match s with
  | [] => if Byte.eqb c x00 then Some 0%nat else None
  | b :: s' =>
      if Byte.eqb b x00 then (if Byte.eqb c x00 then Some 0%nat else None)
      else match strrchr s' c with
           | Some k => Some (S k)
           | None => if Byte.eqb b c then Some 0%nat else None
           end
  end.

End Libc.

(* ================================================================== *)
(** ** rfc4627/json_writer.{h,cc} *)
(* ================================================================== *)

Module Rfc4627.
Import Libc.

(** Modelled from the spec: the enumerators of [json_writer::state].  The
    header under src declares only [none = 0], while json_writer.cc names
    [object_begin], [array_begin] and [array_element]; the full list is the
    one of the state machine of section 4.1, with [document] the
    zero-initialised tag. *)
Inductive state : Set :=
  | document
  | document_done
  | array_begin
  | array_element
  | object_begin
  | object_key
  | object_value.

Definition state_eqb (a b : state) : bool :=
  match a, b with
  | document, document | document_done, document_done
  | array_begin, array_begin | array_element, array_element
  | object_begin, object_begin | object_key, object_key
  | object_value, object_value => true
  | _, _ => false
  end.

(** A [double], by its IEEE 754 class. *)
Definition double := spec_float.

Definition isinf (v : double) : bool :=
  match v with S754_infinity _ => true | _ => false end.
Definition isnan (v : double) : bool :=
  match v with S754_nan => true | _ => false end.

(** What the stream has received.  Every write of the source is a sequence of
    bytes, except [fprintf(_stream, "%.20g", value)], whose text is the C
    library's and is kept as one symbolic item. *)
Inductive item : Set :=
  | Ch (b : byte)
  | G20 (v : double).

Definition chars (l : list byte) : list item := map Ch l.

(** The object.  [_state] is indexed by [_depth] in json_writer.cc; its bound
    is declared nowhere in the sources, so the array is a total map here.
    [_depth] is an integer counter; nothing bounds it from above
    ([increment_depth] leaves the overflow check as a TODO). *)
Record json_writer : Type := mk_json_writer {
  _state : Z -> state;
  _depth : Z;
  _stream : list item
}.

(** [json_writer(FILE* stream)].  Modelled from the spec: [_depth] and the
    tags start at zero ("Zero at construction", initial state [document]);
    the header under src does not declare them. *)
Definition new_json_writer (stream : list item) : json_writer :=
  mk_json_writer (fun _ => document) 0 stream.

(** The tag the separator logic looks at: [_state[_depth]]. *)
Definition top (w : json_writer) : state := _state w (_depth w).

Inductive exception : Set :=
  | invalid_argument (what : string).

(** How a member function ends: it returns, it throws, or an [assert] fails
    and the process aborts ([NDEBUG] is not defined, so [assert] checks).  The
    object is threaded through in all three cases, so what a throwing call
    leaves behind is visible. *)
Inductive completion (A : Type) : Type :=
  | Normal (a : A)
  | Throws (e : exception)
  | AssertFailed.
Arguments Normal {A} a.
Arguments Throws {A} e.
Arguments AssertFailed {A}.

Definition method (A : Type) : Type := json_writer -> completion A * json_writer.

Definition ret {A} (a : A) : method A := fun w => (Normal a, w).

Definition bind {A B} (m : method A) (k : A -> method B) : method B :=
  fun w =>
    match m w with
    | (Normal a, w') => k a w'
    | (Throws e, w') => (Throws e, w')
    | (AssertFailed, w') => (AssertFailed, w')
    end.

Definition throw {A} (e : exception) : method A := fun w => (Throws e, w).

Definition assert (c : bool) : method unit :=
  fun w => if c then (Normal tt, w) else (AssertFailed, w).

Definition modify (f : json_writer -> json_writer) : method unit :=
  fun w => (Normal tt, f w).

Notation "m1 ;; m2" := (bind m1 (fun _ => m2))
  (at level 61, right associativity).

(** [fputc(c, _stream)] and [fputs(s, _stream)]; the source drops their
    results. *)
Definition emit (l : list item) (w : json_writer) : json_writer :=
  mk_json_writer (_state w) (_depth w) (_stream w ++ l).

Definition write (c : byte) : method unit := modify (emit [Ch c]).
Definition write_s (s : cstring) : method unit := modify (emit (chars (c_str s))).
Definition fprintf_lld (v : Z) : method unit := modify (emit (chars (decimal v))).
Definition fprintf_llu (v : Z) : method unit := modify (emit (chars (decimal v))).
Definition fprintf_20g (v : double) : method unit := modify (emit [G20 v]).
Definition fprintf_04X (v : byte) : method unit := modify (emit (chars (hex_04X v))).

Definition increment_depth : method unit :=
  modify (fun w => mk_json_writer (_state w) (_depth w + 1) (_stream w)).

Definition decrement_depth : method unit :=
  bind (fun w => assert (1 <=? _depth w) w) (fun _ =>
  modify (fun w => mk_json_writer (_state w) (_depth w - 1) (_stream w))).

(** Modelled from the spec: [set_state], called by [begin_object] and
    [begin_array] but defined nowhere under src.  Section 4.1 has them "push"
    the tag after the depth is incremented: the tag is stored at [_depth]. *)
Definition set_state (s : state) : method unit :=
  modify (fun w =>
    mk_json_writer (fun d => if d =? _depth w then s else _state w d)
                   (_depth w) (_stream w)).

Definition insert_separator : method unit :=
  fun w =>
    match _state w (_depth w) with
    | array_element => write ","%byte w
    | _ => ret tt w
    end.

Definition insert_whitespace : method unit := ret tt.

Definition begin_object : method unit :=
  insert_separator ;; insert_whitespace ;;
  increment_depth ;; set_state object_begin ;;
  write "{"%byte.

Definition finish_object : method unit :=
  decrement_depth ;; insert_whitespace ;; write "}"%byte.

Definition begin_array : method unit :=
  insert_separator ;; insert_whitespace ;;
  increment_depth ;; set_state array_begin ;;
  write "["%byte.

Definition finish_array : method unit :=
  decrement_depth ;; insert_whitespace ;; write "]"%byte.

Definition write_null : method unit :=
  insert_separator ;; insert_whitespace ;;
  write_s (list_byte_of_string "null").

Definition write_boolean (value : bool) : method unit :=
  insert_separator ;; insert_whitespace ;;
  write_s (list_byte_of_string (if value then "true" else "false")).

Definition write_number_ll (value : Z) : method unit :=
  insert_separator ;; insert_whitespace ;; fprintf_lld value.

Definition write_number_ull (value : Z) : method unit :=
  insert_separator ;; insert_whitespace ;; fprintf_llu value.

Definition write_number_double (value : double) : method unit :=
  if isinf value then
    throw (invalid_argument "Infinity cannot be serialized in JSON")
  else if isnan value then
    throw (invalid_argument "NaN cannot be serialized in JSON")
  else
    insert_separator ;; insert_whitespace ;; fprintf_20g value.

Definition write_char (value : byte) : method unit :=
  match value with
  | x22 => write_s ["\"%byte; x22]
  | x5c => write_s ["\"%byte; "\"%byte]
  | x2f => write_s ["\"%byte; "/"%byte]
  | x08 => write_s ["\"%byte; "b"%byte]
  | x0c => write_s ["\"%byte; "f"%byte]
  | x0a => write_s ["\"%byte; "n"%byte]
  | x0d => write_s ["\"%byte; "r"%byte]
  | x09 => write_s ["\"%byte; "t"%byte]
  | _ =>
      if (Byte.to_N value <=? 0x1F)%N then
        write_s ["\"%byte; "u"%byte] ;; fprintf_04X value
      else
        write value
  end.

(** The loop [while ( *s != 0) write_char( *s++)]. *)
Fixpoint write_chars (s : cstring) : method unit :=
  match s with
  | [] => ret tt
  | c :: s' =>
      if Byte.eqb c x00 then ret tt
      else write_char c ;; write_chars s'
  end.

(** [value] is [None] for [nullptr]. *)
Definition write_string (value : option cstring) : method unit :=
  match value with
  | None => write_null
  | Some s =>
      insert_separator ;; insert_whitespace ;;
      write x22 ;; write_chars s ;; write x22
  end.

(** [fflush_result] is what [std::fflush(_stream)] returned. *)
Definition flush (fflush_result : Z) : method unit :=
  if negb (fflush_result =? 0) then
    ret tt (* TODO: error handling *)
  else
    ret tt.

(** One call on the public interface. *)
Inductive call : Type :=
  | BeginObject
  | FinishObject
  | BeginArray
  | FinishArray
  | WriteNull
  | WriteBoolean (value : bool)
  | WriteNumberLL (value : Z)
  | WriteNumberULL (value : Z)
  | WriteNumberDouble (value : double)
  | WriteString (value : option cstring)
  | Flush (fflush_result : Z).

Definition perform (c : call) : method unit :=
  match c with
  | BeginObject => begin_object
  | FinishObject => finish_object
  | BeginArray => begin_array
  | FinishArray => finish_array
  | WriteNull => write_null
  | WriteBoolean v => write_boolean v
  | WriteNumberLL v => write_number_ll v
  | WriteNumberULL v => write_number_ull v
  | WriteNumberDouble v => write_number_double v
  | WriteString v => write_string v
  | Flush r => flush r
  end.

(** A straight-line caller: [w.c1(); w.c2(); ...]; an exception leaves the
    sequence. *)
Fixpoint perform_all (cs : list call) : method unit :=
  match cs with
  | [] => ret tt
  | c :: cs' => perform c ;; perform_all cs'
  end.

(** What the [switch] of [insert_separator] writes, by the tag it reads. *)
Definition separator_of (s : state) : list item :=
  if state_eqb s array_element then [Ch ","%byte] else [].

(** A writer on an empty stream. *)
Definition fresh : json_writer := new_json_writer [].

(** The objects a program can hold: a new one, or one on which a member
    function has been called, however the call ended. *)
Inductive reachable : json_writer -> Prop :=
  | reachable_new (stream : list item) : reachable (new_json_writer stream)
  | reachable_call (w w' : json_writer) (c : call) (r : completion unit) :
      reachable w -> perform c w = (r, w') -> reachable w'.

(** Sequences of [begin_*] and [finish_*] calls in which every [begin] is
    closed by the [finish] of its kind. *)
Inductive balanced : list call -> Prop :=
  | balanced_nil : balanced []
  | balanced_object (cs : list call) :
      balanced cs -> balanced (BeginObject :: cs ++ [FinishObject])
  | balanced_array (cs : list call) :
      balanced cs -> balanced (BeginArray :: cs ++ [FinishArray])
  | balanced_app (cs1 cs2 : list call) :
      balanced cs1 -> balanced cs2 -> balanced (cs1 ++ cs2).

(** A writer at depth zero whose tag there is [s]. *)
Definition writer_at (s : state) : json_writer :=
  mk_json_writer (fun _ => s) 0 [].

(** The calls that write a scalar value. *)
Definition value_call (c : call) : bool :=
  match c with
  | WriteNull | WriteBoolean _ | WriteNumberLL _ | WriteNumberULL _
  | WriteNumberDouble _ | WriteString _ => true
  | _ => false
  end.

(** The calls that throw: [write_number] on a [double] that is not finite. *)
Definition rejects (c : call) : bool :=
  match c with
  | WriteNumberDouble v => isinf v || isnan v
  | _ => false
  end.

(** [assert] by build: where [NDEBUG] is defined the macro expands to
    nothing; where it is not, it is the [assert] above. *)
Definition assert_built (ndebug : bool) (c : bool) : method unit :=
  if ndebug then ret tt else assert c.

(** [decrement_depth], [finish_object] and [finish_array], the members that
    contain an [assert], by build.  [_depth] is declared nowhere under src:
    one below zero is [-1] for a signed counter and the largest value for an
    unsigned one; the model keeps the integer. *)
Definition decrement_depth_built (ndebug : bool) : method unit :=
  bind (fun w => assert_built ndebug (1 <=? _depth w) w) (fun _ =>
  modify (fun w => mk_json_writer (_state w) (_depth w - 1) (_stream w))).

Definition finish_object_built (ndebug : bool) : method unit :=
  decrement_depth_built ndebug ;; insert_whitespace ;; write "}"%byte.

Definition finish_array_built (ndebug : bool) : method unit :=
  decrement_depth_built ndebug ;; insert_whitespace ;; write "]"%byte.

Definition perform_built (ndebug : bool) (c : call) : method unit :=
  match c with
  | FinishObject => finish_object_built ndebug
  | FinishArray => finish_array_built ndebug
  | _ => perform c
  end.

(** Modelled from the spec: the number of levels the writer supports.  The
    bound of [_state] and the type of [_depth] are declared nowhere under
    src; section 3 has "at least 64", and every integer type holds 0..64. *)
Definition depth_supported : Z := 64.

(** The number of [begin_*] calls of a sequence. *)
Definition opens (cs : list call) : Z :=
  fold_right (fun c n => match c with
                         | BeginObject | BeginArray => 1 + n
                         | _ => n
                         end) 0 cs.

(** By how much a call that returns moves the depth. *)
Definition depth_change (c : call) : Z :=
  match c with
  | BeginObject | BeginArray => 1
  | FinishObject | FinishArray => -1
  | _ => 0
  end.

Definition net_depth (cs : list call) : Z :=
  fold_right (fun c n => depth_change c + n) 0 cs.

(** A byte that is not an ASCII control character. *)
Definition no_control (b : byte) : bool := (0x20 <=? Byte.to_N b)%N.

(** The tags [begin_object] and [begin_array] store; no other tag is passed
    to [set_state] anywhere in json_writer.cc. *)
Definition stored_tag (s : state) : bool :=
  match s with
  | document | object_begin | array_begin => true
  | _ => false
  end.

End Rfc4627.

(* ================================================================== *)
(** ** rfc3174/sha1.h *)
(* ================================================================== *)

Module Rfc3174.
Import Libc.

Definition size : nat := 20.

(** [std::uint8_t _data[size] = {}], as the list of its [size] bytes. *)
Record sha1 : Set := mk_sha1 { _data : list byte }.

(** A [const std::uint8_t*] is modelled by the bytes stored from the pointer
    on; [*p] reads the first of them. *)
Definition deref (p : list byte) : byte := hd x00 p.

(** [a[i] = v] on an array. *)
Definition store (a : list byte) (i : nat) (v : byte) : list byte :=
  if (i <? List.length a)%nat then firstn i a ++ v :: skipn (S i) a else a.

(** The member initialiser [= {}]. *)
Definition zeroes : list byte := repeat x00 size.

(** [sha1() noexcept {}] *)
Definition sha1_default : sha1 := mk_sha1 zeroes.

(** [sha1(const std::uint8_t* const data)]: the body is [*_data = *data]. *)
Definition sha1_of_data (data : list byte) : sha1 :=
  mk_sha1 (store zeroes 0 (deref data)).

(** [sha1(const sha1& other)]: the body is [*_data = *other._data]. *)
Definition sha1_copy (other : sha1) : sha1 :=
  mk_sha1 (store zeroes 0 (deref (_data other))).

(** [operator[]], read and written through the returned reference. *)
Definition index (d : sha1) (position : nat) : byte := nth position (_data d) x00.
Definition assign (d : sha1) (position : nat) (v : byte) : sha1 :=
  mk_sha1 (store (_data d) position v).

Definition front (d : sha1) : byte := index d 0.
Definition back (d : sha1) : byte := index d (size - 1).

Definition compare (d other : sha1) : Z := memcmp (_data d) (_data other) size.

Definition op_eq (d other : sha1) : bool := compare d other =? 0.
Definition op_ne (d other : sha1) : bool := negb (compare d other =? 0).
Definition op_lt (d other : sha1) : bool := compare d other <? 0.
Definition op_le (d other : sha1) : bool := compare d other <=? 0.
Definition op_gt (d other : sha1) : bool := 0 <? compare d other.
Definition op_ge (d other : sha1) : bool := 0 <=? compare d other.

Definition clear (d : sha1) : sha1 := mk_sha1 (memset (_data d) x00 size).

(** [std::swap(_data, other._data)] exchanges the two arrays. *)
Definition swap (d other : sha1) : sha1 * sha1 := (other, d).

(** The array has its [size] bytes. *)
Definition well_formed (d : sha1) : Prop := List.length (_data d) = size.

(** A byte as the [unsigned char] that [memcmp] compares. *)
Definition unsigned (b : byte) : Z := Z.of_N (Byte.to_N b).

(** The digest of "abc" (RFC 3174, first test vector), as a 20-byte buffer
    and as a digest value holding it. *)
Definition abc_bytes : list byte :=
  [xa9; x99; x3e; x36; x47; x06; x81; x6a; xba; x3e;
   x25; x71; x78; x50; xc2; x6c; x9c; xd0; xd8; x9b].

Definition abc_digest : sha1 := mk_sha1 abc_bytes.

End Rfc3174.

(* ================================================================== *)
(** ** util/str.h *)
(* ================================================================== *)

Module Util.
Import Libc.

(** [char* _data = nullptr]; [None] is the null pointer. *)
Record str : Set := mk_str { _data : option cstring }.

(** [static_cast<std::size_t>(-1)] with a 64-bit [std::size_t]. *)
Definition npos : Z := 2 ^ 64 - 1.

Definition str_default : str := mk_str None.
Definition str_of_data (data : option cstring) : str := mk_str data.

Definition empty (s : str) : bool :=
  match _data s with
  | None => true
  | Some p => Byte.eqb (load p 0) x00
  end.

Definition size (s : str) : Z :=
  match _data s with
  | Some p => Z.of_nat (strlen p)
  | None => 0
  end.

(** Reading through the null pointer is undefined: [None]. *)
Definition index (s : str) (pos : Z) : option byte :=
  match _data s with
  | Some p => Some (load p (Z.to_nat pos))
  | None => None
  end.

Definition front (s : str) : option byte := index s 0.

(** [find(char c, std::size_t pos = 0)]: [strchr(_data + pos, c)], then
    [found - _data] or [npos].  [None] when [_data] is null. *)
Definition find (s : str) (c : byte) (pos : Z) : option Z :=
  match _data s with
  | Some p =>
      match strchr (advance p (Z.to_nat pos)) c with
      | Some k => Some (Z.of_nat (Z.to_nat pos + k))
      | None => Some npos
      end
  | None => None
  end.

(** [substr(pos)] is [str(_data + pos)]: the new view shares the buffer. *)
Definition substr (s : str) (pos : Z) : option str :=
  match _data s with
  | Some p => Some (mk_str (Some (advance p (Z.to_nat pos))))
  | None => if pos =? 0 then Some (mk_str None) else None
  end.

(** The loop of [is]: [predicate] is an [int ( * )(int)]. *)
Fixpoint is_from (predicate : Z -> Z) (s : cstring) : bool :=
  match s with
  | [] => true
  | c :: s' =>
      if Byte.eqb c x00 then true
      else if predicate (int_of_char c) =? 0 then false
      else is_from predicate s'
  end.

(** [is(predicate)]; [is] is a keyword here, hence the underscore.  [None]
    when [_data] is null. *)
Definition is_ (predicate : Z -> Z) (s : str) : option bool :=
  match _data s with
  | Some p => Some (is_from predicate p)
  | None => None
  end.

Definition is_alnum := is_ isalnum.
Definition is_alpha := is_ isalpha.
Definition is_ascii := is_ isascii.
Definition is_blank := is_ isblank.
Definition is_cntrl := is_ iscntrl.
Definition is_digit := is_ isdigit.
Definition is_graph := is_ isgraph.
Definition is_lower := is_ islower.
Definition is_print := is_ isprint.
Definition is_punct := is_ ispunct.
Definition is_space := is_ isspace.
Definition is_upper := is_ isupper.
Definition is_xdigit := is_ isxdigit.

(** How a bounds-checked access ends: with the byte, with the
    [std::out_of_range] it throws, or by reading through the null pointer. *)
Inductive checked : Set :=
  | Value (b : byte)
  | OutOfRange (what : string)
  | NullRead.

(** [at(pos)]: [if (pos >= size()) throw std::out_of_range(...)], then
    [_data[pos]]. *)
Definition at_ (s : str) (pos : Z) : checked :=
  if size s <=? pos then OutOfRange "pos >= size()"
  else match index s pos with
       | Some b => Value b
       | None => NullRead
       end.

(** [back()] is [_data[size() - 1]].  On an empty string [size() - 1] wraps
    to the largest [std::size_t] and the read is outside the buffer, as is any
    read through the null pointer: [None]. *)
Definition back (s : str) : option byte :=
  match _data s with
  | Some p =>
      if size s =? 0 then None
      else Some (load p (Z.to_nat (size s - 1)))
  | None => None
  end.

(** [pop_back()] is [_data[size() - 1] = 0], with the same out-of-buffer case
    on an empty string. *)
Definition pop_back (s : str) : option str :=
  match _data s with
  | Some p =>
      if size s =? 0 then None
      else Some (mk_str (Some (poke p (Z.to_nat (size s - 1)) x00)))
  | None => None
  end.

(** [compare(const char* other)] is [strcmp(_data, other)]; [None] when
    either pointer is null. *)
Definition compare (s : str) (other : option cstring) : option Z :=
  match _data s, other with
  | Some p, Some q => Some (strcmp p q)
  | _, _ => None
  end.

Definition equal (s : str) (other : option cstring) : option bool :=
  option_map (fun r => r =? 0) (compare s other).

(** [find(const char* s, std::size_t pos = 0)], on [strstr]. *)
Definition find_s (s : str) (needle : cstring) (pos : Z) : option Z :=
  match _data s with
  | Some p =>
      match strstr (advance p (Z.to_nat pos)) needle with
      | Some k => Some (Z.of_nat (Z.to_nat pos + k))
      | None => Some npos
      end
  | None => None
  end.

(** [rfind(char c, std::size_t pos = 0)], on [strrchr]. *)
Definition rfind (s : str) (c : byte) (pos : Z) : option Z :=
  match _data s with
  | Some p =>
      match strrchr (advance p (Z.to_nat pos)) c with
      | Some k => Some (Z.of_nat (Z.to_nat pos + k))
      | None => Some npos
      end
  | None => None
  end.

(** [substr_from(c)]: [(pos != npos) ? str(_data + pos) : str()]. *)
Definition substr_from (s : str) (c : byte) : option str :=
  match find s c 0 with
  | Some pos =>
      if negb (pos =? npos)
      then option_map (fun p => mk_str (Some (advance p (Z.to_nat pos))))
                      (_data s)
      else Some (mk_str None)
  | None => None
  end.

(** [substr_after(c)]: [(pos != npos) ? str(_data + pos + 1) : str()]. *)
Definition substr_after (s : str) (c : byte) : option str :=
  match find s c 0 with
  | Some pos =>
      if negb (pos =? npos)
      then option_map (fun p => mk_str (Some (advance p (Z.to_nat (pos + 1)))))
                      (_data s)
      else Some (mk_str None)
  | None => None
  end.

(** [has_prefix(prefix)]: [prefix && (find(prefix) == 0)]; a null [prefix]
    is answered before [find] is called. *)
Definition has_prefix (s : str) (prefix : option cstring) : option bool :=
  match prefix with
  | None => Some false
  | Some n => option_map (fun i => i =? 0) (find_s s n 0)
  end.

(** [has_suffix(suffix)]: the three conjuncts are evaluated left to right,
    so [strcmp] is called only for a non-null suffix that is not longer than
    the string. *)
Definition has_suffix (s : str) (suffix : option cstring) : option bool :=
  let string_size := size s in
  let suffix_size :=
    match suffix with Some n => Z.of_nat (strlen n) | None => 0 end in
  match suffix with
  | None => Some false
  | Some n =>
      if negb (suffix_size <=? string_size) then Some false
      else match _data s with
           | Some p =>
               Some (strcmp (advance p (Z.to_nat (string_size - suffix_size))) n
                     =? 0)
           | None => None
           end
  end.

(** The view over the bytes of a literal. *)
Definition str_of_literal (l : string) : str :=
  mk_str (Some (list_byte_of_string l)).

End Util.

(* ================================================================== *)
(** ** The tables of the specification, written from its words *)
(* ================================================================== *)

Module Spec.
Import Libc Rfc4627.

(** Section 4.1, separator insertion: the byte written before a value or a
    key, by the tag on top of the stack. *)
Definition separator (s : state) : list byte :=
  match s with
  | document | array_begin | object_begin => []
  | array_element | object_value => [","%byte]
  | object_key => [":"%byte]
  | document_done => []
  end.

(** Section 4.1, the tag after the value or key. *)
Definition next_state (s : state) : state :=
  match s with
  | document => document_done
  | array_begin | array_element => array_element
  | object_begin | object_value => object_key
  | object_key => object_value
  | document_done => document_done
  end.

(** Section 4.1, string escaping: the output for one input byte. *)
Definition escape (b : byte) : list byte :=
  let n := Byte.to_N b in
  if (n =? 0x22)%N then ["\"%byte; x22]
  else if (n =? 0x5C)%N then ["\"%byte; "\"%byte]
  else if (n =? 0x2F)%N then ["\"%byte; "/"%byte]
  else if (n =? 0x08)%N then ["\"%byte; "b"%byte]
  else if (n =? 0x0C)%N then ["\"%byte; "f"%byte]
  else if (n =? 0x0A)%N then ["\"%byte; "n"%byte]
  else if (n =? 0x0D)%N then ["\"%byte; "r"%byte]
  else if (n =? 0x09)%N then ["\"%byte; "t"%byte]
  else if (n <=? 0x1F)%N then
    ["\"%byte; "u"%byte; "0"%byte; "0"%byte;
     hex_digit_upper (n / 16)%N; hex_digit_upper (n mod 16)%N]
  else [b].

(** RFC 4627, section 2.5: reading the inside of a string back.  A hex digit,
    in either case. *)
Definition hex_value (b : byte) : option N :=
  let n := Byte.to_N b in
  if ((48 <=? n) && (n <=? 57))%N then Some (n - 48)%N
  else if ((65 <=? n) && (n <=? 70))%N then Some (n - 55)%N
  else if ((97 <=? n) && (n <=? 102))%N then Some (n - 87)%N
  else None.

Definition hex4 (a b c d : byte) : option N :=
  match hex_value a, hex_value b, hex_value c, hex_value d with
  | Some x, Some y, Some z, Some t => Some (((x * 16 + y) * 16 + z) * 16 + t)%N
  | _, _, _, _ => None
  end.

Definition byte_of (n : N) : byte :=
  match Byte.of_N n with Some b => b | None => x00 end.

(** The UTF-8 form of a code point of the basic plane. *)
Definition utf8 (cp : N) : list byte :=
  if (cp <? 0x80)%N then [byte_of cp]
  else if (cp <? 0x800)%N then
    [byte_of (0xC0 + cp / 64); byte_of (0x80 + cp mod 64)]%N
  else
    [byte_of (0xE0 + cp / 4096); byte_of (0x80 + (cp / 64) mod 64);
     byte_of (0x80 + cp mod 64)]%N.

(** The two-character escapes. *)
Definition simple_escape (e : byte) : option byte :=
  let n := Byte.to_N e in
  if (n =? 0x22)%N then Some x22
  else if (n =? 0x5C)%N then Some x5c
  else if (n =? 0x2F)%N then Some x2f
  else if (n =? 0x62)%N then Some x08
  else if (n =? 0x66)%N then Some x0c
  else if (n =? 0x6E)%N then Some x0a
  else if (n =? 0x72)%N then Some x0d
  else if (n =? 0x74)%N then Some x09
  else None.

(** [unescaped = %x20-21 / %x23-5B / %x5D-10FFFF], byte by byte. *)
Definition unescaped (b : byte) : bool :=
  let n := Byte.to_N b in
  ((0x20 <=? n) && negb (n =? 0x22) && negb (n =? 0x5C))%N.

(** The bytes a parser recovers from the text between the quotes; [None] when
    the text is not a sequence of [char]s of the grammar.  [fuel] bounds the
    number of [char]s; the length of the text is always enough. *)
Fixpoint parse_chars (fuel : nat) (text : list byte) : option (list byte) :=
  match text with
  | [] => Some []
  | b :: rest =>
      match fuel with
      | O => None
      | S fuel' =>
          if Byte.eqb b x5c then
            match rest with
            | [] => None
            | e :: rest' =>
                if Byte.eqb e "u"%byte then
                  match rest' with
                  | h1 :: h2 :: h3 :: h4 :: rest'' =>
                      match hex4 h1 h2 h3 h4, parse_chars fuel' rest'' with
                      | Some cp, Some tl => Some (utf8 cp ++ tl)
                      | _, _ => None
                      end
                  | _ => None
                  end
                else
                  match simple_escape e, parse_chars fuel' rest' with
                  | Some c, Some tl => Some (c :: tl)
                  | _, _ => None
                  end
            end
          else if unescaped b then
            match parse_chars fuel' rest with
            | Some tl => Some (b :: tl)
            | None => None
            end
          else None
      end
  end.

Definition parse_string_body (text : list byte) : option (list byte) :=
  parse_chars (List.length text) text.

End Spec.

(* ================================================================== *)
(** ** Properties of the JSON writer *)
(* ================================================================== *)

Module JsonWriterFacts.
Import Libc Rfc4627.

#[local] Arguments emit : simpl never.
#[local] Arguments top : simpl never.

(** Runs the sequencing of a method body down to the [emit]s. *)
Ltac run_body :=
  cbv [bind modify ret insert_whitespace write write_s
       fprintf_lld fprintf_llu fprintf_20g fprintf_04X].

(** *** Basic equations of the monad and of the stream *)

Lemma emit_emit (l1 l2 : list item) (w : json_writer) :
  emit l2 (emit l1 w) = emit (l1 ++ l2) w.
Proof.
  unfold emit; cbn. now rewrite app_assoc.
Qed.

Lemma emit_nil (w : json_writer) : emit [] w = w.
Proof.
  destruct w; unfold emit; cbn. now rewrite app_nil_r.
Qed.

Lemma chars_app (l1 l2 : list byte) : chars (l1 ++ l2) = chars l1 ++ chars l2.
Proof. apply map_app. Qed.

Lemma top_emit (l : list item) (w : json_writer) : top (emit l w) = top w.
Proof. reflexivity. Qed.

Lemma insert_separator_eq (w : json_writer) :
  insert_separator w = (Normal tt, emit (separator_of (top w)) w).
Proof.
  unfold insert_separator, separator_of, top.
  destruct (_state w (_depth w)); cbn; try now rewrite emit_nil.
  reflexivity.
Qed.

(** A value writer is the separator followed by the text of the value. *)
Lemma separator_then (l : list item) (w : json_writer) :
  (insert_separator ;; insert_whitespace ;; modify (emit l)) w
  = (Normal tt, emit (separator_of (top w) ++ l) w).
Proof.
  unfold bind at 1. rewrite insert_separator_eq. run_body.
  now rewrite emit_emit.
Qed.

Lemma write_null_eq (w : json_writer) :
  write_null w
  = (Normal tt, emit (separator_of (top w) ++ chars (list_byte_of_string "null")) w).
Proof. apply separator_then. Qed.

Lemma write_boolean_eq (value : bool) (w : json_writer) :
  write_boolean value w
  = (Normal tt,
     emit (separator_of (top w)
           ++ chars (list_byte_of_string (if value then "true" else "false"))) w).
Proof.
  unfold write_boolean, write_s.
  rewrite separator_then. now destruct value.
Qed.

Lemma write_number_ll_eq (value : Z) (w : json_writer) :
  write_number_ll value w
  = (Normal tt, emit (separator_of (top w) ++ chars (decimal value)) w).
Proof. apply separator_then. Qed.

Lemma write_number_ull_eq (value : Z) (w : json_writer) :
  write_number_ull value w
  = (Normal tt, emit (separator_of (top w) ++ chars (decimal value)) w).
Proof. apply separator_then. Qed.

Lemma write_number_double_finite (value : double) (w : json_writer) :
  isinf value || isnan value = false ->
  write_number_double value w
  = (Normal tt, emit (separator_of (top w) ++ [G20 value]) w).
Proof.
  intros H. apply orb_false_iff in H as [Hi Hn].
  unfold write_number_double. rewrite Hi, Hn. apply separator_then.
Qed.

Lemma write_number_double_throws (value : double) (w : json_writer) :
  isinf value || isnan value = true ->
  exists what, write_number_double value w = (Throws (invalid_argument what), w).
Proof.
  intros H. unfold write_number_double.
  destruct (isinf value); [eexists; reflexivity|].
  cbn in H. rewrite H. eexists; reflexivity.
Qed.

(** *** Escaping *)

Lemma write_char_eq (value : byte) (w : json_writer) :
  write_char value w = (Normal tt, emit (chars (Spec.escape value)) w).
Proof.
  destruct value; cbn; run_body; rewrite ?emit_emit; reflexivity.
Qed.

Lemma write_chars_eq (s : cstring) (w : json_writer) :
  write_chars s w = (Normal tt, emit (chars (flat_map Spec.escape (c_str s))) w).
Proof.
  revert w; induction s as [|c s IH]; intros w; cbn.
  - now rewrite emit_nil.
  - destruct (Byte.eqb c x00); cbn.
    + now rewrite emit_nil.
    + unfold bind. rewrite write_char_eq, IH, emit_emit.
      now rewrite chars_app.
Qed.

Lemma write_string_eq (s : cstring) (w : json_writer) :
  write_string (Some s) w
  = (Normal tt,
     emit (separator_of (top w)
           ++ chars (x22 :: flat_map Spec.escape (c_str s) ++ [x22])) w).
Proof.
  unfold write_string. unfold bind at 1. rewrite insert_separator_eq.
  run_body. rewrite write_chars_eq, !emit_emit.
  do 3 f_equal. change (chars (x22 :: ?l)) with (Ch x22 :: chars l).
  now rewrite chars_app.
Qed.

(** *** Reading the escaped text back (RFC 4627, section 2.5) *)

Lemma parse_escape (b : byte) (rest : list byte) (fuel : nat) :
  Spec.parse_chars (S fuel) (Spec.escape b ++ rest)
  = match Spec.parse_chars fuel rest with
    | Some tl => Some (b :: tl)
    | None => None
    end.
Proof. destruct b; reflexivity. Qed.

Lemma escape_nonempty (b : byte) : (1 <= List.length (Spec.escape b))%nat.
Proof. destruct b; cbn; lia. Qed.

Lemma length_escaped (s : list byte) :
  (List.length s <= List.length (flat_map Spec.escape s))%nat.
Proof.
  induction s as [|b s IH]; cbn; [lia|].
  rewrite length_app. pose proof (escape_nonempty b). lia.
Qed.

Lemma parse_escaped (s : list byte) :
  forall fuel, (List.length s <= fuel)%nat ->
  Spec.parse_chars fuel (flat_map Spec.escape s) = Some s.
Proof.
  induction s as [|b s IH]; intros fuel Hfuel.
  - now destruct fuel.
  - destruct fuel as [|fuel]; [cbn in Hfuel; lia|].
    cbn [flat_map]. rewrite parse_escape, IH; [reflexivity|].
    cbn in Hfuel; lia.
Qed.

Lemma parse_string_body_escaped (s : list byte) :
  Spec.parse_string_body (flat_map Spec.escape s) = Some s.
Proof.
  unfold Spec.parse_string_body. apply parse_escaped, length_escaped.
Qed.

(** *** How each call ends *)

Lemma perform_value (c : call) (w : json_writer) :
  value_call c = true ->
  (exists e, perform c w = (Throws e, w))
  \/ (exists l, perform c w = (Normal tt, emit (separator_of (top w) ++ l) w)).
Proof.
  destruct c as [| | | | |b|v|v|v|[s|]|r]; cbn [value_call perform];
    try discriminate; intros _.
  - right; eexists; apply write_null_eq.
  - right; eexists; apply write_boolean_eq.
  - right; eexists; apply write_number_ll_eq.
  - right; eexists; apply write_number_ull_eq.
  - destruct (isinf v || isnan v) eqn:E.
    + left. destruct (write_number_double_throws v w E) as [what H].
      now exists (invalid_argument what).
    + right; eexists; now apply write_number_double_finite.
  - right; eexists; apply write_string_eq.
  - right; eexists; apply write_null_eq.
Qed.

Lemma decrement_depth_eq (w : json_writer) :
  decrement_depth w
  = if 1 <=? _depth w
    then (Normal tt, mk_json_writer (_state w) (_depth w - 1) (_stream w))
    else (AssertFailed, w).
Proof.
  unfold decrement_depth, bind, assert, modify.
  now destruct (1 <=? _depth w).
Qed.

Lemma finish_eq (closing : byte) (w : json_writer) :
  (decrement_depth ;; insert_whitespace ;; write closing) w
  = if 1 <=? _depth w
    then (Normal tt,
          emit [Ch closing]
               (mk_json_writer (_state w) (_depth w - 1) (_stream w)))
    else (AssertFailed, w).
Proof.
  unfold bind at 1. rewrite decrement_depth_eq.
  now destruct (1 <=? _depth w).
Qed.

Lemma begin_depth (tag : state) (opening : byte) (w : json_writer) :
  exists w',
    (insert_separator ;; insert_whitespace ;;
     increment_depth ;; set_state tag ;; write opening) w = (Normal tt, w')
    /\ _depth w' = _depth w + 1.
Proof.
  unfold bind at 1. rewrite insert_separator_eq.
  eexists; split; reflexivity.
Qed.

(** Only a rejected [double] makes a call throw, and the throw comes before
    anything is written or changed. *)
Lemma throws_inv (c : call) (w w' : json_writer) (e : exception) :
  perform c w = (Throws e, w') -> rejects c = true /\ w' = w.
Proof.
  destruct c as [| | | | |b|v|v|v|[s|]|r]; cbn [perform rejects].
  - destruct (begin_depth object_begin "{"%byte w) as [w1 [H _]].
    unfold begin_object. rewrite H. discriminate.
  - unfold finish_object. rewrite finish_eq.
    destruct (1 <=? _depth w); discriminate.
  - destruct (begin_depth array_begin "["%byte w) as [w1 [H _]].
    unfold begin_array. rewrite H. discriminate.
  - unfold finish_array. rewrite finish_eq.
    destruct (1 <=? _depth w); discriminate.
  - rewrite write_null_eq. discriminate.
  - rewrite write_boolean_eq. discriminate.
  - rewrite write_number_ll_eq. discriminate.
  - rewrite write_number_ull_eq. discriminate.
  - destruct (isinf v || isnan v) eqn:E.
    + destruct (write_number_double_throws v w E) as [what H].
      rewrite H. intros [= _ <-]. now split.
    + rewrite (write_number_double_finite v w E). discriminate.
  - rewrite write_string_eq. discriminate.
  - unfold write_string. rewrite write_null_eq. discriminate.
  - unfold flush. destruct (negb (r =? 0)); discriminate.
Qed.

(** *** The depth counter *)

Lemma perform_depth (c : call) (w w' : json_writer) (r : completion unit) :
  perform c w = (r, w') -> 0 <= _depth w -> 0 <= _depth w'.
Proof.
  destruct c as [| | | | |b|v|v|v|[s|]|fr]; cbn [perform]; intros H Hd.
  - destruct (begin_depth object_begin "{"%byte w) as [w1 [H1 D]].
    unfold begin_object in H. rewrite H1 in H. injection H as _ <-. lia.
  - unfold finish_object in H. rewrite finish_eq in H.
    destruct (1 <=? _depth w) eqn:E; injection H as _ <-;
      [apply Z.leb_le in E; unfold emit; cbn; lia | assumption].
  - destruct (begin_depth array_begin "["%byte w) as [w1 [H1 D]].
    unfold begin_array in H. rewrite H1 in H. injection H as _ <-. lia.
  - unfold finish_array in H. rewrite finish_eq in H.
    destruct (1 <=? _depth w) eqn:E; injection H as _ <-;
      [apply Z.leb_le in E; unfold emit; cbn; lia | assumption].
  - rewrite write_null_eq in H. now injection H as _ <-.
  - rewrite write_boolean_eq in H. now injection H as _ <-.
  - rewrite write_number_ll_eq in H. now injection H as _ <-.
  - rewrite write_number_ull_eq in H. now injection H as _ <-.
  - destruct (isinf v || isnan v) eqn:E.
    + destruct (write_number_double_throws v w E) as [what H1].
      rewrite H1 in H. now injection H as _ <-.
    + rewrite (write_number_double_finite v w E) in H. now injection H as _ <-.
  - rewrite write_string_eq in H. now injection H as _ <-.
  - unfold write_string in H. rewrite write_null_eq in H. now injection H as _ <-.
  - unfold flush in H. destruct (negb (fr =? 0)); now injection H as _ <-.
Qed.

Lemma perform_all_app (cs1 cs2 : list call) (w : json_writer) :
  perform_all (cs1 ++ cs2) w = (perform_all cs1 ;; perform_all cs2) w.
Proof.
  revert w; induction cs1 as [|c cs1 IH]; intros w; [reflexivity|].
  cbn [perform_all app]. unfold bind in *.
  destruct (perform c w) as [[[]|e|] w1]; try reflexivity.
  apply IH.
Qed.

Lemma balanced_keeps_depth (cs : list call) :
  balanced cs ->
  forall w, 0 <= _depth w ->
  exists w', perform_all cs w = (Normal tt, w') /\ _depth w' = _depth w.
Proof.
  induction 1 as [|cs Hb IH|cs Hb IH|cs1 cs2 H1 IH1 H2 IH2]; intros w Hd.
  - now exists w.
  - destruct (begin_depth object_begin "{"%byte w) as [w1 [B D]].
    destruct (IH w1 ltac:(lia)) as [w2 [R D2]].
    eexists. cbn [perform_all perform]. unfold bind at 1.
    fold begin_object in B. rewrite B, perform_all_app. unfold bind at 1.
    rewrite R. cbn [perform_all perform]. unfold bind at 1.
    unfold finish_object. rewrite finish_eq.
    replace (1 <=? _depth w2) with true by (symmetry; apply Z.leb_le; lia).
    split; [reflexivity|]. unfold emit; cbn. lia.
  - destruct (begin_depth array_begin "["%byte w) as [w1 [B D]].
    destruct (IH w1 ltac:(lia)) as [w2 [R D2]].
    eexists. cbn [perform_all perform]. unfold bind at 1.
    fold begin_array in B. rewrite B, perform_all_app. unfold bind at 1.
    rewrite R. cbn [perform_all perform]. unfold bind at 1.
    unfold finish_array. rewrite finish_eq.
    replace (1 <=? _depth w2) with true by (symmetry; apply Z.leb_le; lia).
    split; [reflexivity|]. unfold emit; cbn. lia.
  - destruct (IH1 w Hd) as [w1 [R1 D1]].
    destruct (IH2 w1 ltac:(lia)) as [w2 [R2 D2]].
    exists w2. rewrite perform_all_app. unfold bind. rewrite R1, R2.
    split; [reflexivity|lia].
Qed.

(** *** The code on the scenarios of section 8 *)

Example empty_object :
  perform_all [BeginObject; FinishObject] fresh
  = (Normal tt,
     mk_json_writer (fun d => if d =? 1 then object_begin else document) 0
                    (chars (list_byte_of_string "{}"))).
Proof. reflexivity. Qed.

Example escaping_quote_backslash_newline :
  _stream (snd (write_string
                  (Some ["a"%byte; x22; "b"%byte; "\"%byte; "c"%byte; x0a;
                         "d"%byte]) fresh))
  = chars [x22; "a"%byte; "\"%byte; x22; "b"%byte; "\"%byte; "\"%byte;
           "c"%byte; "\"%byte; "n"%byte; "d"%byte; x22].
Proof. reflexivity. Qed.

Example escaping_control :
  _stream (snd (write_string (Some [x01]) fresh))
  = chars (x22 :: list_byte_of_string "\u0001" ++ [x22]).
Proof. reflexivity. Qed.

Example number_signed :
  _stream (snd (perform_all [WriteNumberLL (-36)] fresh))
  = chars (list_byte_of_string "-36").
Proof. reflexivity. Qed.

Example finish_without_begin :
  perform FinishArray fresh = (AssertFailed, fresh).
Proof. reflexivity. Qed.

(** *** Separators (section 4.1) *)

(** C1 as the specification states it fails on the code.  With [object_key]
    on top of the stack [insert_separator] writes nothing where the table has
    a colon, and with [object_value] nothing where it has a comma; and a
    value does not advance the tag: after [begin_array] and [write_null] the
    tag is still [array_begin], so the next element gets no comma. *)
Lemma separator_table_counterexample :
  _stream (snd (insert_separator (writer_at object_key)))
    <> _stream (writer_at object_key) ++ chars (Spec.separator object_key)
  /\ _stream (snd (insert_separator (writer_at object_value)))
    <> _stream (writer_at object_value) ++ chars (Spec.separator object_value)
  /\ top (snd (begin_array fresh)) = array_begin
  /\ top (snd (write_null (snd (begin_array fresh))))
    <> Spec.next_state array_begin
  /\ _stream (snd (perform_all [BeginArray; WriteNull; WriteNull] fresh))
    = chars (list_byte_of_string "[nullnull").
Proof.
  repeat split; try discriminate; reflexivity.
Qed.

(** C1, amended: before a value [insert_separator] writes a single comma
    when the tag at [_state[_depth]] is [array_element] and nothing for every
    other tag, [object_key] and [object_value] included; it always returns,
    and it changes neither the tags nor the depth. *)
Theorem insert_separator_comma_only (w : json_writer) :
  exists w',
    insert_separator w = (Normal tt, w')
    /\ _stream w'
       = _stream w
         ++ (if state_eqb (top w) array_element then [Ch ","%byte] else [])
    /\ _state w' = _state w
    /\ _depth w' = _depth w.
Proof.
  rewrite insert_separator_eq. eexists. split; [reflexivity|].
  repeat split.
Qed.

(** The calls that write a scalar leave the tag on top of the stack alone. *)
Lemma value_call_keeps_top (c : call) (w : json_writer) :
  value_call c = true -> top (snd (perform c w)) = top w.
Proof.
  intros Hc. destruct (perform_value c w Hc) as [[e H]|[l H]]; now rewrite H.
Qed.

(** *** Errors (section 7) *)

(** C2 as the specification states it fails on the code: [write_number] on a
    NaN throws, and the next call on the same writer returns normally and
    writes its text; a failing [fflush] is not reported by [flush] at all. *)
Lemma poison_counterexample :
  perform (WriteNumberDouble S754_nan) fresh
  = (Throws (invalid_argument "NaN cannot be serialized in JSON"), fresh)
  /\ perform WriteNull (snd (perform (WriteNumberDouble S754_nan) fresh))
    = (Normal tt, emit (chars (list_byte_of_string "null")) fresh)
  /\ perform (Flush (-1)) fresh = (Normal tt, fresh).
Proof.
  repeat split.
Qed.

(** C2, amended: no error is latched.  The only call that fails with an error
    is [write_number] on a [double] that is infinite or NaN; it throws before
    anything is written, leaving the writer exactly as it was, and a later
    call throws only if it is itself such a [write_number]. *)
Theorem errors_are_not_latched
    (c1 : call) (w w1 : json_writer) (e : exception) :
  perform c1 w = (Throws e, w1) ->
  rejects c1 = true /\ w1 = w
  /\ forall c2 e2 w2, perform c2 w1 = (Throws e2, w2) -> rejects c2 = true.
Proof.
  intros H. destruct (throws_inv c1 w w1 e H) as [R ->].
  repeat split; [exact R|].
  intros c2 e2 w2 H2. now destruct (throws_inv c2 w w2 e2 H2).
Qed.

Lemma errors_are_not_latched_witness :
  perform (WriteNumberDouble (S754_infinity true)) fresh
  = (Throws (invalid_argument "Infinity cannot be serialized in JSON"), fresh)
  /\ rejects (WriteNumberDouble (S754_infinity true)) = true.
Proof.
  split; [reflexivity|].
  exact (proj1 (errors_are_not_latched
                  (WriteNumberDouble (S754_infinity true)) fresh fresh
                  (invalid_argument "Infinity cannot be serialized in JSON")
                  eq_refl)).
Defined.

(** C4: for a NaN or an infinite [double], [write_number] fails, with the
    [std::invalid_argument] that is the source's form of the error the
    specification calls non_finite_number, and the writer is left as it was:
    same stream, same depth, same tags. *)
Theorem write_number_rejects_non_finite (value : double) (w : json_writer) :
  isnan value = true \/ isinf value = true ->
  exists what,
    write_number_double value w = (Throws (invalid_argument what), w).
Proof.
  intros H. apply write_number_double_throws.
  destruct H as [H|H]; rewrite H; [apply orb_true_r|reflexivity].
Qed.

Lemma write_number_rejects_non_finite_witness :
  exists what,
    write_number_double S754_nan (snd (begin_array fresh))
    = (Throws (invalid_argument what), snd (begin_array fresh)).
Proof.
  apply (write_number_rejects_non_finite S754_nan (snd (begin_array fresh))).
  left; reflexivity.
Defined.

(** *** Strings *)

(** C3: [write_string] on a non-null string returns normally, having written
    the separator, a double quote, for each byte of the string the output the
    escaping table of section 4.1 gives for it, and a double quote; tags and
    depth are untouched.  A reader of RFC 4627 strings recovers from the
    escaped text exactly the bytes of the input, and from the output of each
    single byte that byte. *)
Theorem write_string_escapes (value : cstring) (w : json_writer) :
  write_string (Some value) w
  = (Normal tt,
     emit (separator_of (top w)
           ++ chars (x22 :: flat_map Spec.escape (c_str value) ++ [x22])) w)
  /\ Spec.parse_string_body (flat_map Spec.escape (c_str value))
     = Some (c_str value)
  /\ forall b : byte,
       write_char b w = (Normal tt, emit (chars (Spec.escape b)) w)
       /\ Spec.parse_string_body (Spec.escape b) = Some [b].
Proof.
  split; [apply write_string_eq|].
  split; [apply parse_string_body_escaped|].
  intros b; split; [apply write_char_eq|].
  pose proof (parse_string_body_escaped [b]) as H.
  cbn [flat_map] in H. now rewrite app_nil_r in H.
Qed.

(** C6: [write_string] on the null pointer is [write_null]: it writes the
    separator and the four bytes of [null], with no quotes. *)
Theorem write_string_null (w : json_writer) :
  write_string None w = write_null w
  /\ write_string None w
     = (Normal tt,
        emit (separator_of (top w) ++ chars (list_byte_of_string "null")) w).
Proof.
  split; [reflexivity|apply write_null_eq].
Qed.

(** *** Depth *)

(** While [assert] checks, the depth is not below zero in any object a
    program can hold. *)
Lemma depth_not_negative_while_assert_checks (w : json_writer) :
  reachable w -> 0 <= _depth w.
Proof.
  induction 1 as [stream|w w' c r Hw IH Hc]; [cbn; lia|].
  exact (perform_depth c w w' r Hc IH).
Qed.

(** The definitions of the members are those of the build in which [assert]
    checks. *)
Lemma perform_built_checking (c : call) : perform_built false c = perform c.
Proof. now destruct c. Qed.

(** C5 holds of the specification and fails on the code.  The only guard of
    the decrement is [assert(_depth >= 1)], and the check proper is left as a
    TODO: in a build that defines [NDEBUG], [finish_array] on a new writer
    returns normally, writes the closing bracket and leaves the depth below
    zero.  Where [assert] checks, the same call aborts. *)
Theorem finish_underflows_when_assert_is_compiled_out :
  perform_built true FinishArray fresh
  = (Normal tt, mk_json_writer (fun _ => document) (-1) [Ch "]"%byte])
  /\ _depth (snd (perform_built true FinishArray fresh)) < 0
  /\ _depth (snd (perform_built true FinishObject fresh)) < 0
  /\ perform_built false FinishArray fresh = (AssertFailed, fresh).
Proof.
  repeat split.
Qed.

(** *** Further properties of the writer *)

Lemma begin_eq (tag : state) (opening : byte) (w : json_writer) :
  (insert_separator ;; insert_whitespace ;;
   increment_depth ;; set_state tag ;; write opening) w
  = (Normal tt,
     mk_json_writer (fun d => if d =? _depth w + 1 then tag else _state w d)
                    (_depth w + 1)
                    (_stream w ++ separator_of (top w) ++ [Ch opening])).
Proof.
  unfold bind at 1. rewrite insert_separator_eq.
  cbv [bind modify ret insert_whitespace increment_depth set_state write emit
       _state _depth _stream].
  now rewrite <- app_assoc.
Qed.

(** X1: whatever the call and however it ends, the stream afterwards is the
    stream before with something appended; a call that throws or aborts
    appends nothing. *)
Theorem stream_only_grows (c : call) (w w' : json_writer) (r : completion unit) :
  perform c w = (r, w') ->
  exists l, _stream w' = _stream w ++ l /\ (r <> Normal tt -> l = []).
Proof.
  intros H.
  assert (E : forall l w0, (r, w') = (Normal tt, emit l w0) ->
              _stream w0 = _stream w ->
              exists l0, _stream w' = _stream w ++ l0
                         /\ (r <> Normal tt -> l0 = [])).
  { intros l w0 [= -> ->] Hs. exists l. split; [|congruence].
    unfold emit; cbn. now rewrite Hs. }
  assert (F : w' = w -> r <> Normal tt ->
              exists l0, _stream w' = _stream w ++ l0
                         /\ (r <> Normal tt -> l0 = [])).
  { intros -> _. exists []. split; [now rewrite app_nil_r|reflexivity]. }
  destruct c as [| | | | |b|v|v|v|[s|]|fr]; cbn [perform] in H.
  - unfold begin_object in H. rewrite begin_eq in H. injection H as <- <-.
    eexists. split; [reflexivity|congruence].
  - unfold finish_object in H. rewrite finish_eq in H.
    destruct (1 <=? _depth w).
    + symmetry in H. eapply E; [exact H|reflexivity].
    + injection H as <- <-. apply F; [reflexivity|discriminate].
  - unfold begin_array in H. rewrite begin_eq in H. injection H as <- <-.
    eexists. split; [reflexivity|congruence].
  - unfold finish_array in H. rewrite finish_eq in H.
    destruct (1 <=? _depth w).
    + symmetry in H. eapply E; [exact H|reflexivity].
    + injection H as <- <-. apply F; [reflexivity|discriminate].
  - rewrite write_null_eq in H. symmetry in H. eapply E; [exact H|reflexivity].
  - rewrite write_boolean_eq in H. symmetry in H. eapply E; [exact H|reflexivity].
  - rewrite write_number_ll_eq in H. symmetry in H. eapply E; [exact H|reflexivity].
  - rewrite write_number_ull_eq in H. symmetry in H. eapply E; [exact H|reflexivity].
  - destruct (isinf v || isnan v) eqn:Ev.
    + destruct (write_number_double_throws v w Ev) as [what H1].
      rewrite H1 in H. injection H as <- <-. apply F; [reflexivity|discriminate].
    + rewrite (write_number_double_finite v w Ev) in H.
      symmetry in H. eapply E; [exact H|reflexivity].
  - rewrite write_string_eq in H. symmetry in H. eapply E; [exact H|reflexivity].
  - unfold write_string in H. rewrite write_null_eq in H.
    symmetry in H. eapply E; [exact H|reflexivity].
  - unfold flush in H. exists []. rewrite app_nil_r.
    destruct (negb (fr =? 0)); injection H as <- <-; now split.
Qed.

Lemma stream_only_grows_witness :
  exists l,
    _stream (snd (perform (WriteBoolean false) (snd (begin_array fresh))))
    = _stream (snd (begin_array fresh)) ++ l
    /\ (Normal tt <> Normal tt -> l = []).
Proof.
  apply (stream_only_grows (WriteBoolean false) (snd (begin_array fresh))
           (snd (perform (WriteBoolean false) (snd (begin_array fresh))))
           (Normal tt)).
  reflexivity.
Defined.

(** Every way a call can end, with what it leaves behind. *)
Lemma perform_outcome (c : call) (w : json_writer) :
  (exists w' l,
      perform c w = (Normal tt, w')
      /\ _depth w' = _depth w + depth_change c
      /\ _stream w' = _stream w ++ l
      /\ forall d, _state w' d = _state w d \/ stored_tag (_state w' d) = true)
  \/ (exists e, perform c w = (Throws e, w) /\ rejects c = true)
  \/ (perform c w = (AssertFailed, w)
      /\ (c = FinishObject \/ c = FinishArray) /\ _depth w < 1).
Proof.
  assert (V : forall l, exists w' l',
             (Normal tt, emit l w) = (Normal tt, w')
             /\ _depth w' = _depth w + 0
             /\ _stream w' = _stream w ++ l'
             /\ forall d, _state w' d = _state w d
                          \/ stored_tag (_state w' d) = true).
  { intros l. exists (emit l w), l. unfold emit; cbn.
    repeat split; try lia; intros; now left. }
  destruct c as [| | | | |b|v|v|v|[s|]|fr]; cbn [perform depth_change rejects].
  - left. unfold begin_object. rewrite begin_eq.
    eexists _, _. repeat split. intros d; cbn.
    destruct (d =? _depth w + 1); [now right|now left].
  - unfold finish_object. rewrite finish_eq.
    destruct (1 <=? _depth w) eqn:E.
    + left. eexists _, _. unfold emit; cbn.
      repeat split; try lia; intros; now left.
    + right; right. apply Z.leb_gt in E. repeat split; [now left|lia].
  - left. unfold begin_array. rewrite begin_eq.
    eexists _, _. repeat split. intros d; cbn.
    destruct (d =? _depth w + 1); [now right|now left].
  - unfold finish_array. rewrite finish_eq.
    destruct (1 <=? _depth w) eqn:E.
    + left. eexists _, _. unfold emit; cbn.
      repeat split; try lia; intros; now left.
    + right; right. apply Z.leb_gt in E. repeat split; [now right|lia].
  - left. rewrite write_null_eq. apply V.
  - left. rewrite write_boolean_eq. apply V.
  - left. rewrite write_number_ll_eq. apply V.
  - left. rewrite write_number_ull_eq. apply V.
  - destruct (isinf v || isnan v) eqn:E.
    + right; left. destruct (write_number_double_throws v w E) as [what H].
      now exists (invalid_argument what).
    + left. rewrite (write_number_double_finite v w E). apply V.
  - left. rewrite write_string_eq. apply V.
  - left. unfold write_string. rewrite write_null_eq. apply V.
  - left. exists w, []. unfold flush. rewrite app_nil_r.
    destruct (negb (fr =? 0)); repeat split; try lia; now left.
Qed.

Lemma net_depth_cons (c : call) (cs : list call) :
  net_depth (c :: cs) = depth_change c + net_depth cs.
Proof. reflexivity. Qed.

Lemma opens_cons (c : call) (cs : list call) :
  opens (c :: cs)
  = match c with BeginObject | BeginArray => 1 | _ => 0 end + opens cs.
Proof. now destruct c. Qed.

Lemma depth_accounting (cs : list call) :
  forall w w',
    0 <= _depth w ->
    perform_all cs w = (Normal tt, w') ->
    _depth w' = _depth w + net_depth cs
    /\ 0 <= _depth w' <= _depth w + opens cs.
Proof.
  induction cs as [|c cs IH]; intros w w' Hd H.
  - injection H as <-. cbn. lia.
  - cbn [perform_all] in H. unfold bind in H.
    destruct (perform_outcome c w)
      as [[w1 [l [P [D _]]]]|[[e [P _]]|[P _]]]; rewrite P in H;
      try discriminate.
    pose proof (perform_depth c w w1 (Normal tt) P Hd) as Hd1.
    destruct (IH w1 w' Hd1 H) as [E [L U]].
    rewrite net_depth_cons, opens_cons.
    destruct c; cbn [depth_change] in D |- *; lia.
Qed.

Lemma opens_app (cs1 cs2 : list call) :
  opens (cs1 ++ cs2) = opens cs1 + opens cs2.
Proof.
  induction cs1 as [|c cs1 IH]; [reflexivity|].
  cbn [app]. rewrite !opens_cons, IH. lia.
Qed.

Lemma opens_nonneg (cs : list call) : 0 <= opens cs.
Proof.
  induction cs as [|c cs IH]; [cbn; lia|].
  rewrite opens_cons. destruct c; lia.
Qed.

(** X2: take a writer whose depth is not negative and a sequence of calls
    with no more [begin_*] calls than the supported levels leave room for.
    If the sequence runs to its end (no assertion fails, nothing throws),
    the depth stays within the supported range after every call of it, and
    ends at the depth before plus the number of [begin_*] calls minus the
    number of [finish_*] calls; the scalar writers and [flush] do not move
    it. *)
Theorem depth_counts_open_containers (cs : list call) (w w' : json_writer) :
  0 <= _depth w ->
  _depth w + opens cs <= depth_supported ->
  perform_all cs w = (Normal tt, w') ->
  _depth w' = _depth w + net_depth cs
  /\ (forall cs1 cs2,
        cs = cs1 ++ cs2 ->
        exists w1,
          perform_all cs1 w = (Normal tt, w1)
          /\ 0 <= _depth w1 <= depth_supported).
Proof.
  intros Hd Hs H. split; [now apply depth_accounting|].
  intros cs1 cs2 ->. rewrite perform_all_app in H. unfold bind in H.
  destruct (perform_all cs1 w) as [[[]|e|] w1] eqn:P; try discriminate.
  exists w1. split; [reflexivity|].
  destruct (depth_accounting cs1 w w1 Hd P) as [_ [L U]].
  rewrite opens_app in Hs. pose proof (opens_nonneg cs2). lia.
Qed.

Lemma depth_counts_open_containers_witness :
  _depth (snd (perform_all [BeginArray; WriteNull; BeginObject; FinishObject]
                           fresh))
  = _depth fresh + net_depth [BeginArray; WriteNull; BeginObject; FinishObject].
Proof.
  apply (depth_counts_open_containers
           [BeginArray; WriteNull; BeginObject; FinishObject] fresh
           (snd (perform_all
                   [BeginArray; WriteNull; BeginObject; FinishObject] fresh))).
  - vm_compute. discriminate.
  - vm_compute. discriminate.
  - reflexivity.
Defined.

(** X3: the only calls that end on a failed assertion are [finish_object]
    and [finish_array] on a writer whose depth is below one, and they leave
    the writer untouched: nothing is written, the depth is not decremented.
    On such a writer both do fail. *)
Theorem assertion_fails_only_on_finish_at_depth_zero
    (c : call) (w w' : json_writer) :
  (perform c w = (AssertFailed, w') ->
   (c = FinishObject \/ c = FinishArray) /\ _depth w < 1 /\ w' = w)
  /\ (_depth w < 1 ->
      finish_object w = (AssertFailed, w) /\ finish_array w = (AssertFailed, w)).
Proof.
  split.
  - intros H.
    destruct (perform_outcome c w)
      as [[w1 [l [P _]]]|[[e [P _]]|[P [K D]]]]; rewrite P in H;
      try discriminate.
    injection H as <-. now repeat split.
  - intros D. unfold finish_object, finish_array. rewrite !finish_eq.
    replace (1 <=? _depth w) with false by (symmetry; apply Z.leb_gt; lia).
    now split.
Qed.

Lemma assertion_fails_only_on_finish_at_depth_zero_witness :
  finish_object (snd (perform_all [BeginArray; FinishArray] fresh))
  = (AssertFailed, snd (perform_all [BeginArray; FinishArray] fresh)).
Proof.
  apply (proj2 (assertion_fails_only_on_finish_at_depth_zero
                  FinishObject
                  (snd (perform_all [BeginArray; FinishArray] fresh))
                  fresh)).
  vm_compute. reflexivity.
Defined.

(** X4: with a container open, [finish_object] and [finish_array] both
    return, whatever the tag on top of the stack: each writes its closing
    byte and decrements the depth, and neither looks at the kind of the
    container it closes, nor changes any tag. *)
Theorem finish_does_not_check_the_kind (w : json_writer) :
  1 <= _depth w ->
  exists w1 w2,
    finish_object w = (Normal tt, w1)
    /\ finish_array w = (Normal tt, w2)
    /\ _stream w1 = _stream w ++ [Ch "}"%byte]
    /\ _stream w2 = _stream w ++ [Ch "]"%byte]
    /\ _depth w1 = _depth w - 1 /\ _depth w2 = _depth w - 1
    /\ _state w1 = _state w /\ _state w2 = _state w.
Proof.
  intros D. unfold finish_object, finish_array. rewrite !finish_eq.
  replace (1 <=? _depth w) with true by (symmetry; apply Z.leb_le; lia).
  eexists _, _. repeat split.
Qed.

Lemma finish_does_not_check_the_kind_witness :
  exists w1,
    finish_object (snd (begin_array fresh)) = (Normal tt, w1)
    /\ _stream w1 = chars (list_byte_of_string "[}")
    /\ _depth w1 = 0.
Proof.
  destruct (finish_does_not_check_the_kind (snd (begin_array fresh)))
    as [w1 [w2 [H1 [_ [S1 [_ [D1 _]]]]]]]; [vm_compute; discriminate|].
  exists w1. repeat split; [exact H1|exact S1|exact D1].
Defined.

(** *** The text of a string *)

Lemma escape_no_control (b : byte) : forallb no_control (Spec.escape b) = true.
Proof. destruct b; reflexivity. Qed.

Lemma escape_length (b : byte) :
  (1 <= List.length (Spec.escape b) <= 6)%nat.
Proof. destruct b; cbn; lia. Qed.

Lemma escaped_no_control (s : list byte) :
  forallb no_control (flat_map Spec.escape s) = true.
Proof.
  induction s as [|b s IH]; [reflexivity|].
  cbn [flat_map]. now rewrite forallb_app, escape_no_control, IH.
Qed.

Lemma escaped_length (s : list byte) :
  (List.length s <= List.length (flat_map Spec.escape s) <= 6 * List.length s)%nat.
Proof.
  induction s as [|b s IH]; cbn [flat_map List.length]; [lia|].
  rewrite length_app. pose proof (escape_length b). lia.
Qed.

Lemma length_c_str (s : cstring) : List.length (c_str s) = strlen s.
Proof.
  induction s as [|c s IH]; [reflexivity|]. cbn.
  destruct (Byte.eqb c x00); cbn; congruence.
Qed.

(** X5: what [write_string] writes for a non-null string is the separator
    and a text that starts and ends with a double quote and has no byte below
    0x20 in it: control characters never reach the stream raw. *)
Theorem write_string_writes_no_control_byte (value : cstring) (w : json_writer) :
  exists body,
    write_string (Some value) w
    = (Normal tt,
       emit (separator_of (top w) ++ chars (x22 :: body ++ [x22])) w)
    /\ forallb no_control (x22 :: body ++ [x22]) = true.
Proof.
  exists (flat_map Spec.escape (c_str value)). split; [apply write_string_eq|].
  cbn [forallb]. rewrite forallb_app.
  now rewrite (escaped_no_control (c_str value)).
Qed.

(** X6: the text between the quotes has at least one byte and at most six
    bytes for each byte of the string, so a string of length n is written as
    between n + 2 and 6 n + 2 bytes after the separator. *)
Theorem write_string_length_bounds (value : cstring) (w : json_writer) :
  exists text,
    write_string (Some value) w
    = (Normal tt, emit (separator_of (top w) ++ chars text) w)
    /\ (strlen value + 2 <= List.length text <= 6 * strlen value + 2)%nat.
Proof.
  exists (x22 :: flat_map Spec.escape (c_str value) ++ [x22]).
  split; [apply write_string_eq|].
  cbn [List.length]. rewrite length_app. cbn [List.length].
  pose proof (escaped_length (c_str value)) as H.
  rewrite length_c_str in H. lia.
Qed.

Lemma chars_injective (l1 l2 : list byte) : chars l1 = chars l2 -> l1 = l2.
Proof.
  revert l2; induction l1 as [|a l1 IH]; intros [|b l2]; cbn;
    try discriminate; [reflexivity|].
  intros [= -> H]. f_equal. now apply IH.
Qed.

(** X7: escaping loses nothing: two strings that [write_string] writes the
    same way on the same writer have the same bytes before their
    terminators. *)
Theorem write_string_injective (a b : cstring) (w : json_writer) :
  write_string (Some a) w = write_string (Some b) w -> c_str a = c_str b.
Proof.
  rewrite !write_string_eq. intros [= H].
  apply app_inv_head in H. apply app_inv_head in H.
  injection H as H. apply chars_injective, app_inv_tail in H.
  pose proof (parse_string_body_escaped (c_str a)) as Ha.
  rewrite H, parse_string_body_escaped in Ha. now injection Ha.
Qed.

Lemma write_string_injective_witness :
  c_str ["a"%byte; x00; "b"%byte] = c_str ["a"%byte; x00; "c"%byte].
Proof.
  apply (write_string_injective ["a"%byte; x00; "b"%byte]
           ["a"%byte; x00; "c"%byte] fresh).
  reflexivity.
Defined.

(** *** Separators on the writers a program can hold *)




End JsonWriterFacts.

(* ================================================================== *)
(** ** Properties of the SHA-1 digest value *)
(* ================================================================== *)

Module Sha1Facts.
Import Libc Rfc3174.

(** What the constructor from a pointer builds: the first byte of the source
    over the zeroes of the member initialiser. *)
Lemma sha1_of_data_bytes (data : list byte) :
  _data (sha1_of_data data) = deref data :: repeat x00 19.
Proof. reflexivity. Qed.

Lemma sha1_copy_bytes (other : sha1) :
  _data (sha1_copy other) = deref (_data other) :: repeat x00 19.
Proof. reflexivity. Qed.

Lemma sha1_of_data_index (data : list byte) (i : nat) :
  index (sha1_of_data data) i = if (i =? 0)%nat then deref data else x00.
Proof.
  unfold index. rewrite sha1_of_data_bytes.
  destruct i as [|i]; [reflexivity|]. cbn [nth Nat.eqb].
  apply nth_repeat.
Qed.

Lemma memcmp_refl (a : list byte) (n : nat) : memcmp a a n = 0.
Proof.
  revert a; induction n as [|n IH]; intros a; cbn; [reflexivity|].
  now rewrite Z.eqb_refl.
Qed.

Lemma compare_refl (d : sha1) : compare d d = 0.
Proof. apply memcmp_refl. Qed.

(** C7 holds of the specification and fails on the code: the constructor
    from a pointer copies the first byte only.  On the 20 bytes of the digest
    of "abc", byte 0 of the new value is the source's and byte 1 is zero
    where the source has [x99]. *)
Theorem sha1_of_data_copies_first_byte_only :
  List.length abc_bytes = 20%nat
  /\ index (sha1_of_data abc_bytes) 0 = nth 0 abc_bytes x00
  /\ index (sha1_of_data abc_bytes) 1 = x00
  /\ nth 1 abc_bytes x00 = x99
  /\ _data (sha1_of_data abc_bytes) = xa9 :: repeat x00 19.
Proof.
  repeat split.
Qed.

(** C8 holds of the specification and fails on the code: the copy
    constructor copies the first byte only, so the copy of the digest of
    "abc" does not compare equal to it, although the digest compares equal to
    itself. *)
Theorem sha1_copy_compares_unequal :
  _data (sha1_copy abc_digest) = xa9 :: repeat x00 19
  /\ compare (sha1_copy abc_digest) abc_digest = -153
  /\ op_eq (sha1_copy abc_digest) abc_digest = false
  /\ compare abc_digest abc_digest = 0.
Proof.
  repeat split.
Qed.

(** *** Element access and [clear] *)

Lemma store_length (a : list byte) (i : nat) (v : byte) :
  List.length (store a i v) = List.length a.
Proof.
  unfold store. destruct (i <? List.length a)%nat eqn:E; [|reflexivity].
  apply Nat.ltb_lt in E.
  rewrite length_app. cbn [List.length].
  rewrite length_firstn, length_skipn. lia.
Qed.

Lemma store_same (a : list byte) (i : nat) (v : byte) :
  (i < List.length a)%nat -> nth i (store a i v) x00 = v.
Proof.
  intros H. unfold store.
  replace (i <? List.length a)%nat with true by (symmetry; now apply Nat.ltb_lt).
  rewrite app_nth2; rewrite length_firstn; [|lia].
  replace (i - Nat.min i (List.length a))%nat with 0%nat by lia. reflexivity.
Qed.

Lemma store_other (a : list byte) (i j : nat) (v : byte) :
  j <> i -> nth j (store a i v) x00 = nth j a x00.
Proof.
  intros H. unfold store.
  destruct (i <? List.length a)%nat eqn:E; [|reflexivity].
  apply Nat.ltb_lt in E.
  rewrite <- (firstn_skipn i a) at 3.
  destruct (Nat.lt_ge_cases j i) as [L|G].
  - rewrite !app_nth1; rewrite ?length_firstn; try lia. reflexivity.
  - rewrite !app_nth2; rewrite ?length_firstn; try lia.
    replace (j - Nat.min i (List.length a))%nat with (S (j - S i)) by lia.
    cbn [nth]. rewrite <- (firstn_skipn 1 (skipn i a)).
    rewrite skipn_skipn. rewrite app_nth2; rewrite length_firstn, length_skipn;
      [|lia].
    f_equal. lia.
Qed.

(** X9: a byte written through [operator[]] at a position below 20 is the
    byte read back there, every other position keeps its byte, and the array
    keeps its 20 bytes. *)
Theorem index_after_assign (d : sha1) (position : nat) (v : byte) :
  well_formed d -> (position < size)%nat ->
  index (assign d position v) position = v
  /\ (forall other, other <> position ->
        index (assign d position v) other = index d other)
  /\ well_formed (assign d position v).
Proof.
  unfold well_formed, index, assign; cbn [_data]. intros W H.
  repeat split.
  - apply store_same. lia.
  - intros other Ho. now apply store_other.
  - now rewrite store_length.
Qed.

Lemma index_after_assign_witness :
  index (assign abc_digest 19 xff) 19 = xff
  /\ index (assign abc_digest 19 xff) 0 = xa9.
Proof.
  destruct (index_after_assign abc_digest 19 xff) as [H1 [H2 _]];
    [reflexivity|unfold size; lia|].
  split; [exact H1|]. rewrite (H2 0%nat); [reflexivity|discriminate].
Defined.

(** X10: [clear] turns every digest into the all-zero digest of the default
    constructor, so the two compare equal. *)
Theorem clear_is_default (d : sha1) :
  well_formed d ->
  clear d = sha1_default /\ op_eq (clear d) sha1_default = true.
Proof.
  unfold well_formed, clear, memset. intros W.
  rewrite skipn_all2 by lia. rewrite app_nil_r. split; reflexivity.
Qed.

Lemma clear_is_default_witness :
  clear abc_digest = sha1_default.
Proof.
  apply (clear_is_default abc_digest). reflexivity.
Defined.

(** *** The order *)

Lemma to_N_injective (x y : byte) : Byte.to_N x = Byte.to_N y -> x = y.
Proof.
  intros H. pose proof (Byte.of_to_N x) as Hx.
  rewrite H, Byte.of_to_N in Hx. now injection Hx.
Qed.

Lemma memcmp_zero (n : nat) :
  forall a b, (n <= List.length a)%nat -> (n <= List.length b)%nat ->
  memcmp a b n = 0 -> firstn n a = firstn n b.
Proof.
  induction n as [|n IH]; intros a b La Lb H; [reflexivity|].
  destruct a as [|x a]; [cbn in La; lia|].
  destruct b as [|y b]; [cbn in Lb; lia|].
  cbn in H. cbn [firstn]. cbn in La, Lb.
  destruct (Z.of_N (Byte.to_N x) =? Z.of_N (Byte.to_N y)) eqn:E.
  - apply Z.eqb_eq, N2Z.inj, to_N_injective in E. subst y.
    f_equal. apply IH; [lia|lia|exact H].
  - apply Z.eqb_neq in E. lia.
Qed.

(** X11: [operator==] holds exactly when the two digests have the same 20
    bytes, and [operator!=] exactly when they do not. *)
Theorem equality_is_byte_equality (a b : sha1) :
  well_formed a -> well_formed b ->
  (op_eq a b = true <-> a = b) /\ (op_ne a b = true <-> a <> b).
Proof.
  unfold well_formed. intros Wa Wb.
  assert (E : op_eq a b = true <-> a = b).
  { unfold op_eq, compare. split.
    - intros H. apply Z.eqb_eq in H.
      apply memcmp_zero in H; try lia.
      rewrite <- Wa in H at 1. rewrite <- Wb in H.
      rewrite !firstn_all in H. destruct a, b; cbn in *; congruence.
    - intros ->. now rewrite memcmp_refl. }
  split; [exact E|].
  unfold op_ne. fold (op_eq a b). destruct (op_eq a b); cbn.
  - split; [discriminate|]. intros H; exfalso; now apply H, E.
  - split; [|reflexivity]. intros _ H. apply E in H. discriminate.
Qed.

Lemma equality_is_byte_equality_witness :
  op_eq abc_digest (assign abc_digest 3 x36) = true.
Proof.
  apply (proj1 (equality_is_byte_equality abc_digest (assign abc_digest 3 x36)
                  eq_refl eq_refl)).
  reflexivity.
Defined.

Lemma memcmp_antisym (n : nat) :
  forall a b, memcmp b a n = - memcmp a b n.
Proof.
  induction n as [|n IH]; intros a b; cbn; [reflexivity|].
  rewrite (Z.eqb_sym (Z.of_N (Byte.to_N (hd x00 b)))).
  destruct (Z.of_N (Byte.to_N (hd x00 a)) =? Z.of_N (Byte.to_N (hd x00 b)));
    [apply IH|lia].
Qed.

(** X12: the six relational operators are those of one order: [>] is [<]
    with the operands exchanged, [>=] is [<=] exchanged, [<=] is the negation
    of [>], [!=] the negation of [==], and of [a < b], [a == b], [a > b]
    exactly one holds. *)
Theorem operators_are_consistent (a b : sha1) :
  op_gt a b = op_lt b a
  /\ op_ge a b = op_le b a
  /\ op_le a b = negb (op_gt a b)
  /\ op_ne a b = negb (op_eq a b)
  /\ (op_lt a b = true /\ op_eq a b = false /\ op_gt a b = false
      \/ op_lt a b = false /\ op_eq a b = true /\ op_gt a b = false
      \/ op_lt a b = false /\ op_eq a b = false /\ op_gt a b = true).
Proof.
  unfold op_gt, op_lt, op_ge, op_le, op_ne, op_eq, compare.
  rewrite (memcmp_antisym size (_data a) (_data b)).
  set (r := memcmp (_data a) (_data b) size).
  repeat split.
  - destruct (Z.ltb_spec 0 r), (Z.ltb_spec (- r) 0); (reflexivity || lia).
  - destruct (Z.leb_spec 0 r), (Z.leb_spec (- r) 0); (reflexivity || lia).
  - destruct (Z.leb_spec r 0), (Z.ltb_spec 0 r); (reflexivity || lia).
  - destruct (Z.ltb_spec r 0), (Z.eqb_spec r 0), (Z.ltb_spec 0 r);
      try lia; tauto.
Qed.

Lemma memcmp_trans (n : nat) :
  forall a b c, memcmp a b n <= 0 -> memcmp b c n <= 0 ->
  memcmp a c n <= 0
  /\ (memcmp a b n < 0 \/ memcmp b c n < 0 -> memcmp a c n < 0).
Proof.
  induction n as [|n IH]; intros a b c; cbn; [lia|].
  set (x := Z.of_N (Byte.to_N (hd x00 a))).
  set (y := Z.of_N (Byte.to_N (hd x00 b))).
  set (z := Z.of_N (Byte.to_N (hd x00 c))).
  destruct (Z.eqb_spec x y), (Z.eqb_spec y z), (Z.eqb_spec x z);
    try lia; intros H1 H2.
  apply IH; assumption.
Qed.

(** X13: [operator<=] and [operator<] are transitive. *)
Theorem order_is_transitive (a b c : sha1) :
  (op_le a b = true -> op_le b c = true -> op_le a c = true)
  /\ (op_lt a b = true -> op_lt b c = true -> op_lt a c = true).
Proof.
  unfold op_le, op_lt, compare. split; intros H1 H2.
  - apply Z.leb_le in H1, H2. apply Z.leb_le.
    now apply (memcmp_trans size (_data a) (_data b) (_data c)).
  - apply Z.ltb_lt in H1, H2. apply Z.ltb_lt.
    apply (memcmp_trans size (_data a) (_data b) (_data c)); lia.
Qed.

Lemma order_is_transitive_witness :
  op_lt sha1_default (assign abc_digest 0 xff) = true.
Proof.
  apply (proj2 (order_is_transitive sha1_default abc_digest
                  (assign abc_digest 0 xff))); reflexivity.
Defined.

Lemma memcmp_first_difference (k : nat) :
  forall n a b,
    (k < n)%nat -> firstn k a = firstn k b ->
    (k <= List.length a)%nat -> (k <= List.length b)%nat ->
    nth k a x00 <> nth k b x00 ->
    memcmp a b n = unsigned (nth k a x00) - unsigned (nth k b x00).
Proof.
  induction k as [|k IH]; intros n a b Hn Hf La Lb Hd.
  - destruct n as [|n]; [lia|]. cbn.
    replace (hd x00 a) with (nth 0 a x00) by now destruct a.
    replace (hd x00 b) with (nth 0 b x00) by now destruct b.
    destruct (Z.eqb_spec (Z.of_N (Byte.to_N (nth 0 a x00)))
                         (Z.of_N (Byte.to_N (nth 0 b x00)))) as [E|E];
      [|reflexivity].
    apply N2Z.inj, to_N_injective in E. contradiction.
  - destruct n as [|n]; [lia|].
    destruct a as [|x a]; [cbn in La; lia|].
    destruct b as [|y b]; [cbn in Lb; lia|].
    cbn in Hf. injection Hf as -> Hf. cbn. rewrite Z.eqb_refl.
    cbn in La, Lb, Hd. apply IH; try lia; assumption.
Qed.

(** X14: the order is lexicographic on the bytes read as unsigned numbers:
    at the first position where two digests differ, [a < b] holds exactly
    when the byte of [a] there is the smaller one and [a > b] exactly when it
    is the larger one; the two digests are not equal. *)
Theorem order_is_lexicographic (a b : sha1) (k : nat) :
  well_formed a -> well_formed b -> (k < size)%nat ->
  (forall i, (i < k)%nat -> index a i = index b i) ->
  index a k <> index b k ->
  (op_lt a b = true <-> unsigned (index a k) < unsigned (index b k))
  /\ (op_gt a b = true <-> unsigned (index b k) < unsigned (index a k))
  /\ op_eq a b = false.
Proof.
  unfold well_formed, index, op_lt, op_gt, op_eq, compare.
  intros Wa Wb Hk Hi Hd.
  assert (F : firstn k (_data a) = firstn k (_data b)).
  { apply (nth_ext _ _ x00 x00).
    - rewrite !length_firstn. lia.
    - intros i Li. rewrite length_firstn in Li.
      rewrite !nth_firstn.
      replace (i <? k)%nat with true by (symmetry; apply Nat.ltb_lt; lia).
      apply Hi. lia. }
  rewrite (memcmp_first_difference k size (_data a) (_data b));
    [|lia|assumption|lia|lia|assumption].
  assert (N : unsigned (nth k (_data a) x00) <> unsigned (nth k (_data b) x00)).
  { intros E. apply Hd, to_N_injective, N2Z.inj. exact E. }
  rewrite Z.ltb_lt, Z.ltb_lt. repeat split; lia.
Qed.

Lemma order_is_lexicographic_witness :
  op_lt (assign abc_digest 1 x7f) (assign abc_digest 1 x80) = true.
Proof.
  apply (proj1 (order_is_lexicographic
                  (assign abc_digest 1 x7f) (assign abc_digest 1 x80) 1
                  eq_refl eq_refl ltac:(unfold size; lia)
                  ltac:(intros [|i] Hi; [reflexivity|lia])
                  ltac:(discriminate))).
  vm_compute. reflexivity.
Defined.

End Sha1Facts.

(* ================================================================== *)
(** ** Properties of the C string wrapper *)
(* ================================================================== *)

Module StrFacts.
Import Libc Util.

Lemma strchr_found (p : cstring) (c : byte) :
  forall k, strchr p c = Some k -> load p k = c.
Proof.
  induction p as [|b p IH]; intros k; cbn.
  - destruct (Byte.eqb c x00) eqn:E; [|discriminate].
    intros [= <-]. symmetry. now apply Byte.byte_dec_bl.
  - destruct (Byte.eqb b c) eqn:E.
    + intros [= <-]. now apply Byte.byte_dec_bl.
    + destruct (Byte.eqb b x00); [discriminate|].
      destruct (strchr p c) as [j|]; [|discriminate].
      intros [= <-]. now apply IH.
Qed.

Lemma load_advance (p : cstring) (n k : nat) :
  load (advance p n) k = load p (n + k).
Proof.
  unfold load, advance. revert p; induction n as [|n IH]; intros p.
  - reflexivity.
  - destruct p as [|b p]; [now destruct k|]. apply IH.
Qed.

(** A search that starts at any [pos]: the byte found is in front of the
    substring that starts where it was found. *)
Lemma find_from_front (s : str) (c : byte) (pos i : Z) :
  find s c pos = Some i -> i <> npos ->
  exists s', substr s i = Some s' /\ front s' = Some c.
Proof.
  unfold find, substr, front, index.
  destruct (_data s) as [p|]; [|discriminate].
  destruct (strchr (advance p (Z.to_nat pos)) c) as [k|] eqn:E;
    intros [= <-] Hi; [|contradiction].
  eexists; split; [reflexivity|]. cbn [_data]. f_equal.
  rewrite Nat2Z.id. change (Z.to_nat 0) with 0%nat.
  rewrite load_advance, Nat.add_0_r.
  apply strchr_found in E. now rewrite load_advance in E.
Qed.

(** C9: when [find(c)] returns an index [i] other than [npos], [substr(i)]
    is a view whose [front()] is [c]. *)
Theorem find_substr_front (s : str) (c : byte) (i : Z) :
  find s c 0 = Some i -> i <> npos ->
  exists s', substr s i = Some s' /\ front s' = Some c.
Proof. apply find_from_front. Qed.

Lemma find_substr_front_witness :
  find (str_of_literal "key=value") "="%byte 0 = Some 3
  /\ exists s',
       substr (str_of_literal "key=value") 3 = Some s'
       /\ front s' = Some "="%byte.
Proof.
  split; [reflexivity|].
  apply (find_substr_front (str_of_literal "key=value") "="%byte 3).
  - reflexivity.
  - discriminate.
Defined.

Lemma is_from_empty (predicate : Z -> Z) (p : cstring) :
  load p 0 = x00 -> is_from predicate p = true.
Proof.
  destruct p as [|b p]; [reflexivity|]. cbn. now intros ->.
Qed.

(** C10: over the empty string (a non-null pointer to a NUL byte) [is]
    returns true whatever the predicate, and so does each of the thirteen
    classification members. *)
Theorem empty_string_satisfies_every_predicate (s : str) (p : cstring) :
  _data s = Some p -> load p 0 = x00 ->
  (forall predicate, is_ predicate s = Some true)
  /\ is_alnum s = Some true /\ is_alpha s = Some true
  /\ is_ascii s = Some true /\ is_blank s = Some true
  /\ is_cntrl s = Some true /\ is_digit s = Some true
  /\ is_graph s = Some true /\ is_lower s = Some true
  /\ is_print s = Some true /\ is_punct s = Some true
  /\ is_space s = Some true /\ is_upper s = Some true
  /\ is_xdigit s = Some true.
Proof.
  intros Hs Hp.
  assert (H : forall predicate, is_ predicate s = Some true).
  { intros predicate. unfold is_. rewrite Hs.
    now rewrite (is_from_empty predicate p Hp). }
  repeat split; apply H.
Qed.

Lemma empty_string_satisfies_every_predicate_witness :
  empty (mk_str (Some [x00])) = true
  /\ is_ (fun _ => 0) (mk_str (Some [x00])) = Some true
  /\ is_digit (mk_str (Some [x00])) = Some true.
Proof.
  split; [reflexivity|].
  pose proof (empty_string_satisfies_every_predicate
                (mk_str (Some [x00])) [x00] eq_refl eq_refl) as H.
  split; [apply (proj1 H) | apply H].
Defined.

(** *** Further properties of the wrapper *)

Ltac byte_eq :=
  repeat match goal with
  | H : Byte.eqb _ _ = true |- _ => apply Byte.byte_dec_bl in H; try subst
  | H : Byte.eqb _ _ = false |- _ => apply Byte.eqb_false in H
  end.

Lemma eqb_refl (b : byte) : Byte.eqb b b = true.
Proof. now apply Byte.byte_dec_lb. Qed.

Lemma eqb_neq (a b : byte) : a <> b -> Byte.eqb a b = false.
Proof.
  intros H. destruct (Byte.eqb a b) eqn:E; [|reflexivity]. byte_eq. contradiction.
Qed.

Lemma strlen_c_str (p : cstring) : List.length (c_str p) = strlen p.
Proof.
  induction p as [|b p IH]; [reflexivity|]. cbn.
  destruct (Byte.eqb b x00); cbn; congruence.
Qed.

Lemma c_str_no_nul (p : cstring) : ~ In x00 (c_str p).
Proof.
  induction p as [|b p IH]; cbn; [tauto|].
  destruct (Byte.eqb b x00) eqn:E; cbn; [tauto|]. byte_eq.
  intros [H|H]; [now apply E|now apply IH].
Qed.

(** Below [strlen] the buffer and the string have the same bytes. *)
Lemma load_c_str (p : cstring) :
  forall k, (k < strlen p)%nat -> load p k = nth k (c_str p) x00.
Proof.
  unfold load. induction p as [|b p IH]; intros k H; cbn in H; [lia|].
  cbn [c_str]. destruct (Byte.eqb b x00); [lia|].
  destruct k as [|k]; [reflexivity|]. cbn. apply IH. lia.
Qed.

Lemma load_not_nul (p : cstring) (k : nat) :
  (k < strlen p)%nat -> load p k <> x00.
Proof.
  intros H E. rewrite load_c_str in E by exact H.
  apply (c_str_no_nul p). rewrite <- E. apply nth_In.
  now rewrite strlen_c_str.
Qed.

Lemma load_strlen (p : cstring) : load p (strlen p) = x00.
Proof.
  unfold load. induction p as [|b p IH]; [reflexivity|]. cbn.
  destruct (Byte.eqb b x00) eqn:E; [now byte_eq|exact IH].
Qed.

Lemma c_str_advance (p : cstring) :
  forall k, (k <= strlen p)%nat -> c_str (advance p k) = skipn k (c_str p).
Proof.
  unfold advance. induction p as [|b p IH]; intros k H.
  - now destruct k.
  - destruct k as [|k]; [reflexivity|]. cbn in H |- *.
    destruct (Byte.eqb b x00); [lia|]. cbn. apply IH. lia.
Qed.

Lemma strlen_advance (p : cstring) (k : nat) :
  (k <= strlen p)%nat -> strlen (advance p k) = (strlen p - k)%nat.
Proof.
  intros H. rewrite <- !strlen_c_str, c_str_advance by exact H.
  apply length_skipn.
Qed.

(** [strchr] finds the first occurrence. *)
Lemma strchr_first (p : cstring) (c : byte) :
  forall k, strchr p c = Some k ->
  (k <= strlen p)%nat /\ forall j, (j < k)%nat -> load p j <> c.
Proof.
  induction p as [|b p IH]; intros k; cbn.
  - destruct (Byte.eqb c x00); [|discriminate].
    intros [= <-]. split; [lia|]. intros j Hj; lia.
  - destruct (Byte.eqb b c) eqn:E.
    + intros [= <-]. split; [lia|]. intros j Hj; lia.
    + destruct (Byte.eqb b x00) eqn:E0; [discriminate|].
      destruct (strchr p c) as [i|]; [|discriminate].
      intros [= <-]. destruct (IH i eq_refl) as [L F]. split; [lia|].
      intros [|j] Hj; [byte_eq; exact E|]. apply F. lia.
Qed.

Lemma strchr_none (p : cstring) (c : byte) :
  strchr p c = None <-> c <> x00 /\ ~ In c (c_str p).
Proof.
  induction p as [|b p IH]; cbn.
  - destruct (Byte.eqb c x00) eqn:E; byte_eq.
    + split; [discriminate|]. intros [H _]; now elim H.
    + split; [now split; [|tauto]|reflexivity].
  - destruct (Byte.eqb b c) eqn:E; byte_eq.
    + split; [discriminate|]. intros [H1 H2].
      rewrite eqb_neq in H2 by exact H1. cbn in H2. tauto.
    + destruct (Byte.eqb b x00) eqn:E0; byte_eq.
      * split; [intros _; split; [congruence|tauto]|reflexivity].
      * destruct (strchr p c) as [i|]; cbn.
        -- split; [discriminate|]. intros [H1 H2].
           assert (Some i = None) by (apply IH; tauto). discriminate.
        -- split; [|reflexivity]. intros _.
           destruct (proj1 IH eq_refl) as [H1 H2]. split; [exact H1|].
           intros [H|H]; [now apply E|now apply H2].
Qed.

(** X15: on a non-null view [is(predicate)] is true exactly when the
    predicate is non-zero on every byte before the terminator, each passed
    as the [int] a [char] converts to; bytes after the terminator are not
    looked at. *)
Theorem is_checks_every_byte (s : str) (p : cstring) (predicate : Z -> Z) :
  _data s = Some p ->
  is_ predicate s
  = Some (forallb (fun b => negb (predicate (int_of_char b) =? 0)) (c_str p)).
Proof.
  intros Hs. unfold is_. rewrite Hs. f_equal. clear Hs.
  induction p as [|b p IH]; [reflexivity|]. cbn.
  destruct (Byte.eqb b x00); [reflexivity|]. cbn.
  destruct (predicate (int_of_char b) =? 0); [reflexivity|exact IH].
Qed.

Lemma is_checks_every_byte_witness :
  is_digit (str_of_literal "2026") = Some true
  /\ is_digit (str_of_literal "20x6") = Some false.
Proof.
  split.
  - apply (eq_trans (is_checks_every_byte (str_of_literal "2026")
                        (list_byte_of_string "2026") isdigit eq_refl)).
    reflexivity.
  - apply (eq_trans (is_checks_every_byte (str_of_literal "20x6")
                        (list_byte_of_string "20x6") isdigit eq_refl)).
    reflexivity.
Defined.

(** X16: when [find(c, pos)] with [pos] inside the string returns an index
    other than [npos], that index lies between [pos] and [size()], the byte
    there is [c], and no byte from [pos] up to it is [c]: it is the first
    occurrence. *)
Theorem find_first_occurrence (s : str) (c : byte) (pos i : Z) :
  0 <= pos <= size s ->
  find s c pos = Some i -> i <> npos ->
  pos <= i <= size s
  /\ index s i = Some c
  /\ forall j, pos <= j < i -> index s j <> Some c.
Proof.
  unfold find, index, size. destruct (_data s) as [p|]; [|discriminate].
  intros Hpos.
  destruct (strchr (advance p (Z.to_nat pos)) c) as [k|] eqn:E;
    intros [= <-] Hi; [|contradiction].
  pose proof (strchr_found _ _ _ E) as Hc.
  destruct (strchr_first _ _ _ E) as [L F].
  rewrite strlen_advance in L by lia.
  rewrite load_advance in Hc.
  repeat split; try lia.
  - now rewrite Nat2Z.id, Hc.
  - intros j Hj [= H].
    apply (F (Z.to_nat j - Z.to_nat pos)%nat); [lia|].
    rewrite load_advance. rewrite <- H. f_equal. lia.
Qed.

Lemma find_first_occurrence_witness :
  find (str_of_literal "a.b.c") "."%byte 2 = Some 3
  /\ index (str_of_literal "a.b.c") 3 = Some "."%byte.
Proof.
  split; [reflexivity|].
  apply (find_first_occurrence (str_of_literal "a.b.c") "."%byte 2 3).
  - vm_compute. split; discriminate.
  - reflexivity.
  - discriminate.
Defined.

(** X17: on a string shorter than [npos], [find(c)] returns [npos] exactly
    when [c] is not NUL and is none of the bytes of the string; looking for
    NUL finds the terminator, at [size()]. *)
Theorem find_npos_iff_absent (s : str) (p : cstring) (c : byte) :
  _data s = Some p -> size s < npos ->
  (find s c 0 = Some npos <-> c <> x00 /\ ~ In c (c_str p))
  /\ find s x00 0 = Some (size s).
Proof.
  unfold find, size. intros -> Hn.
  change (advance p (Z.to_nat 0)) with p. split.
  - destruct (strchr p c) as [k|] eqn:E.
    + destruct (strchr_first _ _ _ E) as [L _]. split.
      * intros [= H]. lia.
      * intros H. apply strchr_none in H. congruence.
    + split; [intros _; now apply strchr_none|reflexivity].
  - destruct (strchr p x00) as [k|] eqn:E.
    + destruct (strchr_first _ _ _ E) as [L F].
      apply strchr_found in E. cbn [Nat.add Z.to_nat]. do 2 f_equal.
      destruct (Nat.lt_ge_cases k (strlen p)) as [Lt|Ge]; [|lia].
      now apply load_not_nul in Lt.
    + apply strchr_none in E. now destruct E.
Qed.

Lemma find_npos_iff_absent_witness :
  find (str_of_literal "key=value") ";"%byte 0 = Some npos.
Proof.
  apply (proj1 (find_npos_iff_absent (str_of_literal "key=value")
                  (list_byte_of_string "key=value") ";"%byte
                  eq_refl eq_refl)).
  split; [discriminate|].
  cbn. intros H. repeat (destruct H as [H|H]; [discriminate|]). exact H.
Defined.

(** X18: [at(pos)] returns a byte exactly for the positions below [size()],
    and that byte is the one [operator[]] gives and is never NUL; for every
    other position, and so for every position of an empty or null view, it
    throws [std::out_of_range].  It never reads through a null pointer. *)
Theorem at_is_bounds_checked (s : str) (pos : Z) :
  0 <= pos ->
  (pos < size s ->
   exists b, at_ s pos = Value b /\ index s pos = Some b /\ b <> x00)
  /\ (size s <= pos -> at_ s pos = OutOfRange "pos >= size()")
  /\ at_ s pos <> NullRead.
Proof.
  intros Hpos. unfold at_, index, size.
  destruct (_data s) as [p|].
  - destruct (Z.leb_spec (Z.of_nat (strlen p)) pos) as [H|H].
    + repeat split; [lia|discriminate].
    + repeat split; [|lia|discriminate]. intros _.
      eexists; repeat split. apply load_not_nul. lia.
  - replace (0 <=? pos) with true by (symmetry; apply Z.leb_le; lia).
    repeat split; [lia|discriminate].
Qed.

Lemma at_is_bounds_checked_witness :
  at_ (str_of_literal "ab") 2 = OutOfRange "pos >= size()"
  /\ at_ str_default 0 = OutOfRange "pos >= size()".
Proof.
  split.
  - apply (at_is_bounds_checked (str_of_literal "ab") 2);
      vm_compute; discriminate.
  - apply (at_is_bounds_checked str_default 0); vm_compute; discriminate.
Defined.

(** X19: [empty()] and [size()] agree: a view is empty exactly when its size
    is zero, the null view included. *)
Theorem empty_iff_size_zero (s : str) : empty s = (size s =? 0).
Proof.
  unfold empty, size, load. destruct (_data s) as [[|b p]|]; try reflexivity.
  cbn. now destruct (Byte.eqb b x00).
Qed.

(** *** Comparison, prefixes and suffixes *)

Lemma byte_diff_zero (x y : byte) :
  Z.of_N (Byte.to_N x) - Z.of_N (Byte.to_N y) = 0 -> x = y.
Proof.
  intros H. apply Sha1Facts.to_N_injective. lia.
Qed.

Lemma strcmp_zero (a : cstring) :
  forall b, strcmp a b = 0 <-> c_str a = c_str b.
Proof.
  induction a as [|x a IH]; intros b.
  - destruct b as [|y b]; cbn [strcmp c_str load nth]; [cbn; tauto|].
    change 0 with (Z.of_N (Byte.to_N x00)) at 1.
    destruct (Byte.eqb y x00) eqn:E; byte_eq.
    + cbn. tauto.
    + split; [|discriminate]. intros H. apply byte_diff_zero in H.
      congruence.
  - cbn [strcmp c_str]. destruct b as [|y b]; cbn [load nth tl c_str].
    + destruct (Byte.eqb x x00) eqn:E; byte_eq; [tauto|].
      split; [|discriminate]. intros H. apply byte_diff_zero in H.
      congruence.
    + destruct (Byte.eqb x y) eqn:E; byte_eq.
      * destruct (Byte.eqb y x00) eqn:E0; [tauto|].
        rewrite IH. split; [congruence|]. now intros [= H].
      * split.
        -- intros H. apply byte_diff_zero in H. congruence.
        -- destruct (Byte.eqb x x00) eqn:Ex, (Byte.eqb y x00) eqn:Ey; byte_eq;
             try discriminate; congruence.
Qed.

(** X20: [equal(other)] on two non-null pointers is true exactly when the
    two strings have the same bytes before their terminators; what follows
    a terminator in either buffer does not count. *)
Theorem equal_iff_same_bytes (s : str) (p q : cstring) :
  _data s = Some p ->
  (equal s (Some q) = Some true <-> c_str p = c_str q)
  /\ (equal s (Some q) = Some false <-> c_str p <> c_str q).
Proof.
  intros Hs. unfold equal, compare. rewrite Hs. cbn [option_map].
  pose proof (strcmp_zero p q) as H.
  destruct (Z.eqb_spec (strcmp p q) 0) as [E|E]; split; split;
    try discriminate; try tauto; try reflexivity.
Qed.

Lemma equal_iff_same_bytes_witness :
  equal (mk_str (Some ["o"%byte; "k"%byte; x00; "x"%byte]))
        (Some (list_byte_of_string "ok")) = Some true.
Proof.
  apply (proj1 (equal_iff_same_bytes
                  (mk_str (Some ["o"%byte; "k"%byte; x00; "x"%byte]))
                  ["o"%byte; "k"%byte; x00; "x"%byte]
                  (list_byte_of_string "ok") eq_refl)).
  reflexivity.
Defined.

Lemma starts_with_prefix (n : cstring) :
  forall h, starts_with h n = true <-> exists rest, c_str h = c_str n ++ rest.
Proof.
  induction n as [|y n IH]; intros h; cbn.
  - split; [intros _; now exists (c_str h)|reflexivity].
  - destruct (Byte.eqb y x00) eqn:Ey; byte_eq.
    + split; [intros _; now exists (c_str h)|reflexivity].
    + destruct h as [|x h]; cbn.
      * split; [discriminate|]. intros [rest H]. discriminate.
      * destruct (Byte.eqb x y) eqn:E; byte_eq.
        -- rewrite (eqb_neq y x00 Ey). rewrite IH.
           split; intros [rest H]; exists rest; cbn; congruence.
        -- split; [discriminate|]. intros [rest H].
           destruct (Byte.eqb x x00); [discriminate|]. congruence.
Qed.

Lemma strstr_zero (h n : cstring) :
  strstr h n = Some 0%nat <-> starts_with h n = true.
Proof.
  destruct h as [|x h]; cbn [strstr].
  - destruct (starts_with [] n); split; congruence.
  - destruct (starts_with (x :: h) n); [tauto|].
    destruct (Byte.eqb x x00); [split; discriminate|].
    destruct (strstr h n); cbn; split; discriminate.
Qed.

(** X21: [has_prefix(prefix)] on a non-null view is true exactly when the
    bytes of the view begin with the bytes of [prefix], so always for the
    empty prefix; a null [prefix] is answered false without the view being
    read. *)
Theorem has_prefix_iff_prefix (s : str) (p n : cstring) :
  _data s = Some p ->
  (has_prefix s (Some n) = Some true
   <-> exists rest, c_str p = c_str n ++ rest)
  /\ has_prefix s None = Some false
  /\ has_prefix str_default None = Some false.
Proof.
  intros Hs. repeat split; try reflexivity.
  - unfold has_prefix, find_s. rewrite Hs.
    change (advance p (Z.to_nat 0)) with p.
    intros H. apply starts_with_prefix, strstr_zero.
    destruct (strstr p n) as [[|k]|]; [reflexivity|discriminate|discriminate].
  - intros H. apply starts_with_prefix, strstr_zero in H.
    unfold has_prefix, find_s. rewrite Hs.
    change (advance p (Z.to_nat 0)) with p. now rewrite H.
Qed.

Lemma has_prefix_iff_prefix_witness :
  has_prefix (str_of_literal "http://x") (Some (list_byte_of_string "http:"))
  = Some true.
Proof.
  apply (proj1 (has_prefix_iff_prefix (str_of_literal "http://x")
                  (list_byte_of_string "http://x")
                  (list_byte_of_string "http:") eq_refl)).
  exists (list_byte_of_string "//x"). reflexivity.
Defined.

(** X22: [has_suffix(suffix)] on a non-null view is true exactly when the
    bytes of the view end with the bytes of [suffix]; a suffix longer than
    the view is answered false before any comparison, and so is a null
    one. *)
Theorem has_suffix_iff_suffix (s : str) (p n : cstring) :
  _data s = Some p ->
  (has_suffix s (Some n) = Some true
   <-> exists front, c_str p = front ++ c_str n)
  /\ has_suffix s None = Some false.
Proof.
  intros Hs. split; [|reflexivity].
  unfold has_suffix, size. rewrite Hs.
  destruct (Z.leb_spec (Z.of_nat (strlen n)) (Z.of_nat (strlen p))) as [L|L];
    cbn [negb].
  - replace (Z.to_nat (Z.of_nat (strlen p) - Z.of_nat (strlen n)))
      with (strlen p - strlen n)%nat by lia.
    split.
    + intros [= H]. apply Z.eqb_eq, strcmp_zero in H.
      rewrite c_str_advance in H by lia.
      exists (firstn (strlen p - strlen n) (c_str p)).
      rewrite <- H. symmetry. apply firstn_skipn.
    + intros [front H]. f_equal. apply Z.eqb_eq, strcmp_zero.
      rewrite c_str_advance by lia.
      assert (List.length front = (strlen p - strlen n)%nat) as Hl.
      { apply (f_equal (@List.length byte)) in H.
        rewrite length_app, !strlen_c_str in H. lia. }
      rewrite H, <- Hl. rewrite skipn_app, skipn_all, Nat.sub_diag. reflexivity.
  - split; [discriminate|]. intros [front H].
    apply (f_equal (@List.length byte)) in H.
    rewrite length_app, !strlen_c_str in H. lia.
Qed.

Lemma has_suffix_iff_suffix_witness :
  has_suffix (str_of_literal "sha1.h") (Some (list_byte_of_string ".h"))
  = Some true.
Proof.
  apply (proj1 (has_suffix_iff_suffix (str_of_literal "sha1.h")
                  (list_byte_of_string "sha1.h")
                  (list_byte_of_string ".h") eq_refl)).
  exists (list_byte_of_string "sha1"). reflexivity.
Defined.

(** *** Substrings *)

Lemma strchr_split (p : cstring) (c : byte) :
  c <> x00 ->
  forall k, strchr p c = Some k ->
  c_str p = firstn k (c_str p) ++ c :: c_str (advance p (S k))
  /\ c_str (advance p k) = c :: c_str (advance p (S k))
  /\ ~ In c (firstn k (c_str p)).
Proof.
  intros Hc. unfold advance. induction p as [|b p IH]; intros k; cbn [strchr].
  - rewrite (eqb_neq c x00 Hc). discriminate.
  - destruct (Byte.eqb b c) eqn:E; byte_eq.
    + intros [= <-]. cbn. rewrite (eqb_neq c x00 Hc). cbn. tauto.
    + destruct (Byte.eqb b x00) eqn:E0; [discriminate|].
      destruct (strchr p c) as [i|]; [|discriminate].
      intros [= <-]. destruct (IH i eq_refl) as [H1 [H2 H3]].
      cbn [c_str]. rewrite E0. cbn [firstn skipn app].
      repeat split.
      * f_equal. exact H1.
      * exact H2.
      * intros [H|H]; [now apply E|now apply H3].
Qed.

(** X23: when [c], not NUL, is found at an index other than [npos],
    [substr_from(c)] is the view that starts at that [c] and
    [substr_after(c)] the view that starts behind it: the string is the bytes
    before the first [c], which hold no [c], then [c], then the bytes of
    [substr_after(c)]. *)
Theorem substr_after_splits_at_first (s : str) (p : cstring) (c : byte) (i : Z) :
  _data s = Some p -> c <> x00 ->
  find s c 0 = Some i -> i <> npos ->
  exists q r,
    substr_after s c = Some (mk_str (Some q))
    /\ substr_from s c = Some (mk_str (Some r))
    /\ c_str r = c :: c_str q
    /\ c_str p = firstn (Z.to_nat i) (c_str p) ++ c :: c_str q
    /\ ~ In c (firstn (Z.to_nat i) (c_str p)).
Proof.
  intros Hs Hc Hf Hi. unfold substr_after, substr_from. rewrite Hf.
  replace (i =? npos) with false by (symmetry; now apply Z.eqb_neq).
  cbn [negb]. rewrite Hs. cbn [option_map].
  unfold find in Hf. rewrite Hs in Hf.
  change (advance p (Z.to_nat 0)) with p in Hf.
  destruct (strchr p c) as [k|] eqn:E; [|congruence].
  injection Hf as <-. cbn [Nat.add Z.to_nat].
  destruct (strchr_split p c Hc k E) as [H1 [H2 H3]].
  replace (Z.to_nat (Z.of_nat k + 1)) with (S k) by lia.
  rewrite Nat2Z.id. eexists _, _. repeat split; assumption.
Qed.

Lemma substr_after_splits_at_first_witness :
  exists q,
    substr_after (str_of_literal "key=value=x") "="%byte
    = Some (mk_str (Some q))
    /\ c_str q = list_byte_of_string "value=x".
Proof.
  destruct (substr_after_splits_at_first (str_of_literal "key=value=x")
              (list_byte_of_string "key=value=x") "="%byte 3
              eq_refl ltac:(discriminate) eq_refl ltac:(discriminate))
    as [q [r [H1 [_ [_ [H2 _]]]]]].
  exists q. split; [exact H1|].
  change (list_byte_of_string "key=value=x")
    with (list_byte_of_string "key" ++ "="%byte :: list_byte_of_string "value=x")
    in H2.
  cbn in H2. now injection H2.
Defined.

Lemma c_str_poke (p : cstring) :
  forall k, (k < strlen p)%nat -> c_str (poke p k x00) = firstn k (c_str p).
Proof.
  unfold poke. induction p as [|b p IH]; intros k H; cbn in H; [lia|].
  destruct (Byte.eqb b x00) eqn:E0; [lia|].
  destruct k as [|k]; [reflexivity|].
  cbn [firstn skipn app c_str]. rewrite E0. cbn [firstn]. f_equal.
  apply IH. lia.
Qed.

(** X24: on a non-empty string [pop_back()] gives the string without its
    last byte: the size goes down by one and the bytes before stay. *)
Theorem pop_back_removes_last (s : str) (p : cstring) :
  _data s = Some p -> 1 <= size s ->
  exists q,
    pop_back s = Some (mk_str (Some q))
    /\ c_str q = removelast (c_str p)
    /\ size (mk_str (Some q)) = size s - 1.
Proof.
  intros Hs H. unfold pop_back. unfold size in *. rewrite Hs in *.
  replace (Z.of_nat (strlen p) =? 0) with false
    by (symmetry; apply Z.eqb_neq; lia).
  eexists. split; [reflexivity|].
  replace (Z.to_nat (Z.of_nat (strlen p) - 1)) with (pred (strlen p)) by lia.
  assert (c_str (poke p (pred (strlen p)) x00) = removelast (c_str p)) as Hq.
  { rewrite c_str_poke by lia.
    now rewrite removelast_firstn_len, strlen_c_str. }
  split; [exact Hq|]. cbn [_data].
  rewrite <- (strlen_c_str (poke _ _ _)), Hq, removelast_firstn_len.
  rewrite length_firstn, !strlen_c_str. lia.
Qed.

Lemma pop_back_removes_last_witness :
  exists q,
    pop_back (str_of_literal "path/") = Some (mk_str (Some q))
    /\ c_str q = list_byte_of_string "path".
Proof.
  destruct (pop_back_removes_last (str_of_literal "path/")
              (list_byte_of_string "path/") eq_refl)
    as [q [H1 [H2 _]]]; [vm_compute; discriminate|].
  exists q. split; [exact H1|exact H2].
Defined.

Lemma last_is_nth (l : list byte) :
  last l x00 = nth (pred (List.length l)) l x00.
Proof.
  induction l as [|a [|b l] IH]; try reflexivity.
  exact IH.
Qed.

(** X25: on a non-empty string [back()] is the last byte before the
    terminator, and so is not NUL. *)
Theorem back_is_last_byte (s : str) (p : cstring) :
  _data s = Some p -> 1 <= size s ->
  back s = Some (last (c_str p) x00) /\ back s <> Some x00.
Proof.
  intros Hs H. unfold back. unfold size in *. rewrite Hs in *.
  replace (Z.of_nat (strlen p) =? 0) with false
    by (symmetry; apply Z.eqb_neq; lia).
  replace (Z.to_nat (Z.of_nat (strlen p) - 1)) with (pred (strlen p)) by lia.
  split.
  - f_equal. rewrite load_c_str by lia.
    now rewrite last_is_nth, strlen_c_str.
  - intros [= E]. revert E. apply load_not_nul. lia.
Qed.

Lemma back_is_last_byte_witness :
  back (str_of_literal "path/") = Some "/"%byte.
Proof.
  apply (back_is_last_byte (str_of_literal "path/")
           (list_byte_of_string "path/") eq_refl).
  vm_compute; discriminate.
Defined.

(** *** The last occurrence *)

Lemma strrchr_none (p : cstring) (c : byte) :
  strrchr p c = None ->
  forall k, (k <= strlen p)%nat -> load p k <> c.
Proof.
  unfold load. induction p as [|b p IH]; cbn.
  - destruct (Byte.eqb c x00) eqn:E; [discriminate|]. byte_eq.
    intros _ k Hk. destruct k; cbn; congruence.
  - destruct (Byte.eqb b x00) eqn:E0; byte_eq.
    + destruct (Byte.eqb c x00) eqn:E; [discriminate|]. byte_eq.
      intros _ k Hk. destruct k; [cbn; congruence|lia].
    + destruct (strrchr p c); [discriminate|].
      destruct (Byte.eqb b c) eqn:E; [discriminate|]. byte_eq.
      intros _ [|k] Hk; [exact E|]. apply IH; [reflexivity|lia].
Qed.

Lemma strrchr_last (p : cstring) (c : byte) :
  forall j, strrchr p c = Some j ->
  load p j = c /\ (j <= strlen p)%nat
  /\ forall k, (j < k <= strlen p)%nat -> load p k <> c.
Proof.
  unfold load. induction p as [|b p IH]; intros j; cbn.
  - destruct (Byte.eqb c x00) eqn:E; [|discriminate]. byte_eq.
    intros [= <-]. repeat split; [lia|]. intros k Hk; lia.
  - destruct (Byte.eqb b x00) eqn:E0; byte_eq.
    + destruct (Byte.eqb c x00) eqn:E; [|discriminate]. byte_eq.
      intros [= <-]. repeat split; [lia|]. intros k Hk; lia.
    + destruct (strrchr p c) as [i|] eqn:R.
      * intros [= <-]. destruct (IH i eq_refl) as [H1 [H2 H3]].
        repeat split; [exact H1|lia|].
        intros [|k] Hk; [lia|]. apply H3. lia.
      * destruct (Byte.eqb b c) eqn:E; [|discriminate]. byte_eq.
        intros [= <-]. repeat split; [lia|].
        intros [|k] Hk; [lia|]. apply (strrchr_none p _ R). lia.
Qed.

Lemma strchr_strrchr_none (p : cstring) (c : byte) :
  strchr p c = None <-> strrchr p c = None.
Proof.
  induction p as [|b p IH]; cbn; [tauto|].
  destruct (Byte.eqb b c) eqn:E, (Byte.eqb b x00) eqn:E0; byte_eq.
  - rewrite eqb_refl. split; discriminate.
  - destruct (strrchr p c); split; discriminate.
  - rewrite (eqb_neq c x00) by congruence. tauto.
  - destruct (strchr p c), (strrchr p c); cbn; split; try discriminate;
      try reflexivity; intros _; exfalso.
    + assert (@None nat = None -> Some n = None) as H by apply IH.
      specialize (H eq_refl). discriminate.
    + assert (Some n = None) as H by now apply IH. discriminate.
Qed.

(** X26: when [rfind(c)] returns an index other than [npos], the byte there
    is [c], no later byte up to and including the terminator is [c], and
    [find(c)] returns an index that is not larger: [rfind] is the last
    occurrence and [find] the first. *)
Theorem rfind_last_occurrence (s : str) (c : byte) (j : Z) :
  rfind s c 0 = Some j -> j <> npos ->
  0 <= j <= size s
  /\ index s j = Some c
  /\ (forall k, j < k <= size s -> index s k <> Some c)
  /\ exists i, find s c 0 = Some i /\ 0 <= i <= j.
Proof.
  unfold rfind, find, index, size. destruct (_data s) as [p|]; [|discriminate].
  change (advance p (Z.to_nat 0)) with p.
  destruct (strrchr p c) as [m|] eqn:R; intros [= <-] Hj; [|contradiction].
  destruct (strrchr_last p c m R) as [H1 [H2 H3]].
  cbn [Nat.add Z.to_nat]. repeat split; try lia.
  - now rewrite Nat2Z.id, H1.
  - intros k Hk [= E]. apply (H3 (Z.to_nat k)); [lia|exact E].
  - destruct (strchr p c) as [i|] eqn:F.
    + exists (Z.of_nat i). split; [reflexivity|].
      destruct (strchr_first p c i F) as [_ G].
      destruct (Nat.lt_ge_cases m i) as [L|L]; [|lia].
      now apply G in L.
    + apply strchr_strrchr_none in F. congruence.
Qed.

Lemma rfind_last_occurrence_witness :
  rfind (str_of_literal "a/b/c") "/"%byte 0 = Some 3
  /\ exists i, find (str_of_literal "a/b/c") "/"%byte 0 = Some i /\ 0 <= i <= 3.
Proof.
  split; [reflexivity|].
  apply (rfind_last_occurrence (str_of_literal "a/b/c") "/"%byte 3).
  - reflexivity.
  - discriminate.
Defined.

End StrFacts.
